(** * PaperIQ scoring core: a shallow embedding of [backend_main.py]

    The development follows the source function by function.

    - A text is a Python [str] whose code points are below 256; each code
      point is held in an [ascii] and the text is a [list ascii].  The
      character classes are the ones Python's [str.isspace], [str.lower] and
      the [re] module's [\s], [\w] and [\b] use on those code points.
    - Python numbers are exact rationals ([Q]); an [int] is a [Z].  Binary
      rounding of floats is not part of the model, so a value on or next to
      a rounding tie, or two penalties one unit in the last place apart, can
      come out differently from the code.  Division raises
      [ZeroDivisionError] on a zero divisor, as [/] does in Python.
    - An exception is a value of [exn]; code that may raise returns a [res].
    - [TextBlob(span).sentiment] is an external call: a function on a world
      state that either raises or yields (polarity, subjectivity). *)

From Stdlib Require Import Ascii String ZArith QArith Qround Qminmax Lia Lqa Bool List.
From Stdlib Require Import Sorting.Sorted Sorting.Permutation.
Import ListNotations.

Open Scope char_scope.
Open Scope Q_scope.

(** ** Python [str] *)

Module Str.

Definition str := list ascii.

Definition lit (s : string) : str := list_ascii_of_string s.

Definition code (c : ascii) : N := N_of_ascii c.

Definition between (lo hi : N) (c : ascii) : bool :=
  ((lo <=? code c) && (code c <=? hi))%N.

Definition at_code (n : N) (c : ascii) : bool := (code c =? n)%N.

(** [str.isspace] on one code point; also the class [\s] of [re]. *)
Definition isspace (c : ascii) : bool :=
  between 9 13 c || between 28 32 c || at_code 133 c || at_code 160 c.

(** The class [\w] of [re]: alphanumeric code points and the underscore. *)
Definition isword (c : ascii) : bool :=
  between 48 57 c || between 65 90 c || at_code 95 c || between 97 122 c
  || at_code 170 c || between 178 179 c || at_code 181 c || between 185 186 c
  || between 188 190 c || between 192 214 c || between 216 246 c
  || between 248 255 c.

(** [str.lower] on one code point. *)
Definition lower_char (c : ascii) : ascii :=
  if between 65 90 c || between 192 214 c || between 216 222 c
  then ascii_of_N (code c + 32)
  else c.

Definition lower (s : str) : str := map lower_char s.

Fixpoint lstrip (s : str) : str :=
  match s with
  | [] => []
  | c :: r => if isspace c then lstrip r else s
  end.

Definition rstrip (s : str) : str := rev (lstrip (rev s)).

(** [s.strip()] *)
Definition strip (s : str) : str := rstrip (lstrip s).

(** [s.replace(a + b, new)] for a two-character pattern: every occurrence,
    left to right, without overlap. *)
Fixpoint replace2 (a b : ascii) (new : str) (s : str) : str :=
  match s with
  | [] => []
  | c :: t =>
      match t with
      | d :: r =>
          if Ascii.eqb c a && Ascii.eqb d b
          then new ++ replace2 a b new r
          else c :: replace2 a b new t
      | [] => [c]
      end
  end.

Fixpoint strip_prefix (p s : str) : option str :=
  match p, s with
  | [], _ => Some s
  | _ :: _, [] => None
  | a :: p', c :: s' => if Ascii.eqb a c then strip_prefix p' s' else None
  end.

Definition str_eq_dec : forall a b : str, {a = b} + {a <> b} :=
  list_eq_dec ascii_dec.

(** [len(set(words))] *)
Definition distinct (ws : list str) : list str := nodup str_eq_dec ws.

End Str.
Import Str.

(** ** The regular expressions of the source *)

Module Re.

Definition isword_opt (o : option ascii) : bool :=
  match o with Some c => isword c | None => false end.

(** [\b] between the character before a position and the one at it; the
    two ends of the text count as non-word characters. *)
Definition word_boundary (before at_ : option ascii) : bool :=
  xorb (isword_opt before) (isword_opt at_).

(** *** [(?<=[.!?])\s+] *)

Definition is_terminator (c : ascii) : bool :=
  Ascii.eqb c "." || Ascii.eqb c "!" || Ascii.eqb c "?".

Definition after_terminator (before : option ascii) : bool :=
  match before with Some p => is_terminator p | None => false end.

(** The greedy [\s+] once its first character [last] is taken: the last
    character taken and what follows the run. *)
Fixpoint skip_spaces (last : ascii) (s : str) : ascii * str :=
  match s with
  | c :: r => if isspace c then skip_spaces c r else (last, s)
  | [] => (last, [])
  end.

(** Leftmost match in [s], [before] being the character in front of [s]:
    the text in front of the match, the last character of the match and
    the text behind it. *)
Fixpoint find_separator (before : option ascii) (s : str)
  : option (str * ascii * str) :=
  match s with
  | [] => None
  | c :: r =>
      if after_terminator before && isspace c
      then let (last, rest) := skip_spaces c r in Some ([], last, rest)
      else match find_separator (Some c) r with
           | Some (piece, last, rest) => Some (c :: piece, last, rest)
           | None => None
           end
  end.

Fixpoint split_from (fuel : nat) (before : option ascii) (s : str) : list str :=
  match fuel with
  | O => [s]
  | S f =>
      match find_separator before s with
      | Some (piece, last, rest) => piece :: split_from f (Some last) rest
      | None => [s]
      end
  end.

(** [re.split(r'(?<=[.!?])\s+', s)]: every match takes a character, so
    [length s] rounds are enough. *)
Definition split_sentences (s : str) : list str := split_from (length s) None s.

(** *** [\b[\w']+\b] *)

Definition in_token (c : ascii) : bool := isword c || Ascii.eqb c "'".

(** The greedy [[\w']+]: the run taken, reversed, and what follows. *)
Fixpoint take_run (acc : str) (s : str) : str * str :=
  match s with
  | c :: r => if in_token c then take_run (c :: acc) r else (acc, s)
  | [] => (acc, [])
  end.

(** Backtracking of the run until the closing [\b] holds; [taken] is the
    run reversed, so its head is the last character taken. *)
Fixpoint give_back (taken : str) (rest : str) : option (str * ascii * str) :=
  match taken with
  | [] => None
  | c :: t =>
      if word_boundary (Some c) (hd_error rest)
      then Some (rev taken, c, rest)
      else give_back t (c :: rest)
  end.

(** A match of the pattern at the head of [s]. *)
Definition match_token (before : option ascii) (s : str)
  : option (str * ascii * str) :=
  if word_boundary before (hd_error s)
  then let (taken, rest) := take_run [] s in give_back taken rest
  else None.

Fixpoint findall_from (fuel : nat) (before : option ascii) (s : str) : list str :=
  match fuel, s with
  | O, _ => []
  | _, [] => []
  | S f, c :: r =>
      match match_token before s with
      | Some (tok, last, rest) => tok :: findall_from f (Some last) rest
      | None => findall_from f (Some c) r
      end
  end.

(** [re.findall(r'\b[\w\']+\b', s)] *)
Definition findall_tokens (s : str) : list str := findall_from (length s) None s.

(** *** [\b(because|therefore|thus|hence|consequently|so)\b] *)

Definition CAUSAL : list str :=
  map lit ["because"; "therefore"; "thus"; "hence"; "consequently"; "so"]%string.

Definition marker_at (s : str) (m : str) : bool :=
  match strip_prefix m s with
  | Some rest => word_boundary (Some (last m " ")) (hd_error rest)
  | None => false
  end.

Definition match_marker (before : option ascii) (s : str) : bool :=
  word_boundary before (hd_error s) && existsb (marker_at s) CAUSAL.

Fixpoint search_from (before : option ascii) (s : str) : bool :=
  match_marker before s
  || match s with
     | [] => false
     | c :: r => search_from (Some c) r
     end.

(** [re.search(r'\b(because|...|so)\b', s)] as a truth value *)
Definition search_causal (s : str) : bool := search_from None s.

End Re.

(** ** Segmenter *)

(** [re.split] on the stripped text; then, of the pieces that are not empty
    once stripped, each with backslash-n replaced by a space and stripped. *)
Definition sentence_split (text : str) : list str :=
  let sentences := Re.split_sentences (strip text) in
  map (fun s => strip (replace2 "\" "n" [" "] s))
      (filter (fun s => (0 <? length (strip s))%nat) sentences).

(** [re.findall] on the lowered text. *)
Definition tokenize_words (text : str) : list str :=
  Re.findall_tokens (lower text).

(** ** Exceptions and numbers *)

(** The exceptions of the core: a division by zero, the refusal raised by
    [analyze], and an exception raised inside the sentiment oracle, which
    nothing in the core catches: [OracleRaised what] is that exception
    itself, of class [what], on its way out; the code has no exception class
    of its own for it. *)
Inductive exn : Type :=
| ZeroDivisionError
| HTTPException (status_code : Z) (detail : string)
| OracleRaised (what : string).

Inductive res (A : Type) : Type :=
| Ok (a : A)
| Raise (e : exn).
Arguments Ok {A} a.
Arguments Raise {A} e.

Definition bind {A B : Type} (m : res A) (k : A -> res B) : res B :=
  match m with
  | Ok a => k a
  | Raise e => Raise e
  end.

Notation "x <- m ;; k" := (bind m (fun x => k))
  (at level 61, m at next level, right associativity).

(** The body of a [for] loop or comprehension run on every element in order,
    stopping at the first exception. *)
Fixpoint for_each {A B : Type} (f : A -> res B) (l : list A) : res (list B) :=
  match l with
  | [] => Ok []
  | a :: r => b <- f a ;; bs <- for_each f r ;; Ok (b :: bs)
  end.

Module Num.

(** [len(l)] *)
Definition len {A : Type} (l : list A) : Z := Z.of_nat (length l).

(** [a / b] *)
Definition truediv (a b : Q) : res Q :=
  if Qeq_bool b 0 then Raise ZeroDivisionError else Ok (a / b).

Definition sumZ (l : list Z) : Z := fold_right Z.add 0%Z l.

Definition sumQ (l : list Q) : Q := fold_right Qplus 0 l.

(** [x ** 2] *)
Definition sq (x : Q) : Q := x * x.

(** Nearest integer, a tie going to the even one. *)
Definition round_half_even (q : Q) : Z :=
  let f := Qfloor q in
  let r := q - inject_Z f in
  match Qcompare r (1 # 2) with
  | Lt => f
  | Gt => (f + 1)%Z
  | Eq => if Z.even f then f else (f + 1)%Z
  end.

(** [round(x, 2)] *)
Definition round2 (x : Q) : Q := inject_Z (round_half_even (x * 100)) / 100.

Definition gtb (a b : Q) : bool := negb (Qle_bool a b).

End Num.
Import Num.

(** ** Feature extractor *)

Definition type_token_ratio (words : list str) : res Q :=
  match words with
  | [] => Ok 0
  | _ => truediv (inject_Z (len (distinct words))) (inject_Z (len words))
  end.

Definition avg_word_length (words : list str) : res Q :=
  match words with
  | [] => Ok 0
  | _ => truediv (inject_Z (sumZ (map len words))) (inject_Z (len words))
  end.

Definition avg_sentence_length (sentences : list str) : res Q :=
  match sentences with
  | [] => Ok 0
  | _ =>
      let lengths := map (fun s => len (tokenize_words s)) sentences in
      truediv (inject_Z (sumZ lengths)) (inject_Z (len lengths))
  end.

Definition lexical_sophistication (words : list str) : res Q :=
  match words with
  | [] => Ok 0
  | _ =>
      let long_words := len (filter (fun w => (6 <? len w)%Z) words) in
      truediv (inject_Z long_words) (inject_Z (len words))
  end.

Definition coherence_score (sentences : list str) : res Q :=
  match sentences with
  | [] => Ok 0
  | _ =>
      let lens := map (fun s => len (tokenize_words s)) sentences in
      mean <- truediv (inject_Z (sumZ lens)) (inject_Z (len lens)) ;;
      var <- truediv (sumQ (map (fun l => sq (inject_Z l - mean)) lens))
                     (inject_Z (len lens)) ;;
      ratio <- truediv var (sq (mean + 1)) ;;
      Ok (Qmax 0 (1 - ratio))
  end.

Definition MODAL : list str :=
  map lit ["may"; "might"; "could"; "should"; "would"]%string.

Definition is_modal (w : str) : bool :=
  if in_dec str_eq_dec w MODAL then true else false.

Definition has_causal (s : str) : bool := Re.search_causal (lower s).

Definition reasoning_proxy (sentences words : list str) : res Q :=
  let causal := len (filter has_causal sentences) in
  let modal := len (filter is_modal words) in
  a <- truediv (inject_Z causal) (inject_Z (len sentences + 1)) ;;
  b <- truediv (inject_Z modal) (inject_Z (len words + 1)) ;;
  let score := a - b in
  Ok (Qmax 0 (Qmin 1 ((1 # 2) + score))).

Module Features.
Record t : Type := mk {
  word_count : Z;
  sentence_count : Z;
  avg_sentence_len : Q;
  avg_word_len : Q;
  ttr : Q;
  lex_soph : Q;
  coherence : Q;
  reasoning_proxy : Q;
  sentiment_polarity : Q;
  sentiment_subjectivity : Q
}.
End Features.

Module Sentiment.
Record t : Type := mk {
  text : str;
  polarity : Q;
  subjectivity : Q
}.
End Sentiment.

Module Scores.
Record t : Type := mk {
  language : Q;
  coherence : Q;
  reasoning : Q;
  composite : Q
}.
End Scores.

(** ** Scorer *)

Definition score_paper (features : Features.t) : res Scores.t :=
  w <- truediv (Features.avg_word_len features) 5 ;;
  let lang := 100 * ((2 # 10) * Qmin 1 (Features.ttr features * (15 # 10))
                     + (3 # 10) * Qmin 1 (Features.lex_soph features * 3)
                     + (5 # 10) * Qmin 1 w) in
  let coh := 100 * Features.coherence features in
  let reason := 100 * Features.reasoning_proxy features in
  let composite := round2 ((4 # 10) * lang + (3 # 10) * coh + (3 # 10) * reason) in
  Ok {| Scores.language := round2 lang;
        Scores.coherence := round2 coh;
        Scores.reasoning := round2 reason;
        Scores.composite := composite |}.

(** ** Sentence flagger *)

(** [l.sort(key=key, reverse=True)]: descending by key, elements with equal
    keys staying in their order. *)
Section Sort.
Context {A : Type} (key : A -> Q).

Fixpoint insert_desc (x : A) (l : list A) : list A :=
  match l with
  | [] => [x]
  | y :: r => if gtb (key y) (key x) then y :: insert_desc x r else x :: l
  end.

Definition sort_desc (l : list A) : list A := fold_right insert_desc [] l.

(** The order of the result, and the elements of one key. *)
Definition descending (a b : A) : Prop := key b <= key a.

Definition same_key (p : Q) (a : A) : bool := Qeq_bool (key a) p.
End Sort.

(** The body of the loop of [sentence_contributions] for one sentence. *)
Definition contribution (overall_features : Features.t) (s : str) : res (str * Q) :=
  let words := tokenize_words s in
  match words with
  | [] => Ok (s, 0)
  | _ =>
      ttr <- truediv (inject_Z (len (distinct words))) (inject_Z (len words)) ;;
      let long :=
        if gtb (inject_Z (len words))
               (Qmax 40 (Features.avg_sentence_len overall_features * 2))
        then 1 else 0 in
      let causal := if has_causal s then 1 else 0 in
      let neg := 0 in
      let neg := neg + long * (12 # 10) in
      let neg := neg + (1 - ttr) * 1 in
      let neg := neg + (1 - causal) * (5 # 10) in
      Ok (s, neg)
  end.

Definition sentence_contributions (sentences : list str)
    (overall_features : Features.t) : res (list (str * Q)) :=
  contributions <- for_each (contribution overall_features) sentences ;;
  Ok (sort_desc snd contributions).

(** ** Orchestration, with the sentiment oracle *)

Module Response.
Record t : Type := mk {
  composite : Q;
  language : Q;
  coherence : Q;
  reasoning : Q;
  diagnostics : Features.t;
  top_flagged_sentences : list str;
  sentiment_analysis : list Sentiment.t
}.
End Response.

Section Pipeline.

(** The world the oracle lives in, and [TextBlob(span).sentiment]: it
    raises (the name of the exception on the left) or returns polarity
    and subjectivity, and leaves a new world. *)
Variable World : Type.
Variable oracle : str -> World -> (string + Q * Q) * World.

Definition M (A : Type) : Type := World -> res A * World.

Definition ret {A : Type} (a : A) : M A := fun w => (Ok a, w).

Definition lift {A : Type} (r : res A) : M A := fun w => (r, w).

Definition bindM {A B : Type} (m : M A) (k : A -> M B) : M B :=
  fun w =>
    match m w with
    | (Ok a, w') => k a w'
    | (Raise e, w') => (Raise e, w')
    end.

Notation "x <~ m ;; k" := (bindM m (fun x => k))
  (at level 61, m at next level, right associativity).

(** [TextBlob(span).sentiment]: a cached property, so one call of the
    oracle per blob whatever the number of fields read from it. *)
Definition sentiment (span : str) : M (Q * Q) :=
  fun w =>
    match oracle span w with
    | (inr ps, w') => (Ok ps, w')
    | (inl what, w') => (Raise (OracleRaised what), w')
    end.

Fixpoint for_eachM {A B : Type} (f : A -> M B) (l : list A) : M (list B) :=
  match l with
  | [] => ret []
  | a :: r => b <~ f a ;; bs <~ for_eachM f r ;; ret (b :: bs)
  end.

Definition sentence_sentiment (sentence : str) : M Sentiment.t :=
  ps <~ sentiment sentence ;;
  ret {| Sentiment.text := sentence;
         Sentiment.polarity := fst ps;
         Sentiment.subjectivity := snd ps |}.

Definition compute_features (text : str)
  : M (Features.t * list str * list str * list Sentiment.t) :=
  let sentences := sentence_split text in
  let words := tokenize_words text in
  asl <~ lift (avg_sentence_length sentences) ;;
  awl <~ lift (avg_word_length words) ;;
  ttr <~ lift (type_token_ratio words) ;;
  ls <~ lift (lexical_sophistication words) ;;
  coh <~ lift (coherence_score sentences) ;;
  rp <~ lift (reasoning_proxy sentences words) ;;
  blob <~ sentiment text ;;
  sentence_sentiments <~ for_eachM sentence_sentiment sentences ;;
  ret ({| Features.word_count := len words;
          Features.sentence_count := len sentences;
          Features.avg_sentence_len := asl;
          Features.avg_word_len := awl;
          Features.ttr := ttr;
          Features.lex_soph := ls;
          Features.coherence := coh;
          Features.reasoning_proxy := rp;
          Features.sentiment_polarity := fst blob;
          Features.sentiment_subjectivity := snd blob |},
       sentences, words, sentence_sentiments).

Definition too_short : exn :=
  HTTPException 400 "Text too short. Provide at least 20 characters.".

(** [req.text or ''] is [text] itself: the request model makes it a [str]. *)
Definition analyze (text : str) : M Response.t :=
  if (len (strip text) <? 20)%Z then lift (Raise too_short)
  else
    r <~ compute_features text ;;
    let '(features, sentences, words, sentence_sentiments) := r in
    scores <~ lift (score_paper features) ;;
    contribs <~ lift (sentence_contributions sentences features) ;;
    let top_flagged := map fst (firstn 5 contribs) in
    ret {| Response.composite := Scores.composite scores;
           Response.language := Scores.language scores;
           Response.coherence := Scores.coherence scores;
           Response.reasoning := Scores.reasoning scores;
           Response.diagnostics := features;
           Response.top_flagged_sentences := top_flagged;
           Response.sentiment_analysis := sentence_sentiments |}.

End Pipeline.

Arguments sentiment {World} oracle span _.
Arguments compute_features {World} oracle text _.
Arguments analyze {World} oracle text _.

(** An oracle that always answers, for running the pipeline. *)
Definition steady_oracle (span : str) (w : unit) : (string + Q * Q) * unit :=
  (inr (0, 0), w).

Definition nl : ascii := ascii_of_N 10.

(** ** Vocabulary of the statements *)

(** Some two neighbouring characters of [s] are related by [R]. *)
Fixpoint adjacent (R : ascii -> ascii -> bool) (s : str) : bool :=
  match s with
  | [] => false
  | a :: t =>
      match t with
      | [] => false
      | b :: _ => R a b || adjacent R t
      end
  end.

Definition space_after_terminator (p c : ascii) : bool :=
  Re.is_terminator p && isspace c.

Definition newline_after_terminator (p c : ascii) : bool :=
  Re.is_terminator p && Ascii.eqb c nl.

Definition starts_with (P : ascii -> bool) (s : str) : bool :=
  match s with
  | [] => false
  | c :: _ => P c
  end.

Definition ends_with (P : ascii -> bool) (s : str) : bool :=
  starts_with P (rev s).

Definition is_newline (c : ascii) : bool := Ascii.eqb c nl.

(** [f] holds the document-level features of [text], as [compute_features]
    fills them in. *)
Definition features_of (text : str) (f : Features.t) : Prop :=
  let sentences := sentence_split text in
  let words := tokenize_words text in
  Features.word_count f = len words
  /\ Features.sentence_count f = len sentences
  /\ avg_sentence_length sentences = Ok (Features.avg_sentence_len f)
  /\ avg_word_length words = Ok (Features.avg_word_len f)
  /\ type_token_ratio words = Ok (Features.ttr f)
  /\ lexical_sophistication words = Ok (Features.lex_soph f)
  /\ coherence_score sentences = Ok (Features.coherence f)
  /\ reasoning_proxy sentences words = Ok (Features.reasoning_proxy f).

(** The oracle asked for each span in turn, every call answering: the
    answers and the world left behind. *)
Fixpoint answers {World : Type} (oracle : str -> World -> (string + Q * Q) * World)
    (spans : list str) (w : World) : option (list (Q * Q) * World) :=
  match spans with
  | [] => Some ([], w)
  | s :: r =>
      match oracle s w with
      | (inr ps, w') =>
          match answers oracle r w' with
          | Some (l, w'') => Some (ps :: l, w'')
          | None => None
          end
      | (inl _, _) => None
      end
  end.

(** The penalty of a (sentence, penalty) pair is 0 when the sentence has no
    word token, and in [0, 2.7) when it has one. *)
Definition penalty_in_range (sp : str * Q) : Prop :=
  match tokenize_words (fst sp) with
  | [] => snd sp = 0
  | _ :: _ => 0 <= snd sp /\ snd sp < 27 # 10
  end.

(** A word and the word that takes its place: the same word, or a strictly
    longer one. *)
Definition no_shorter (a b : str) : Prop := a = b \/ (length a < length b)%nat.

Definition strictly_longer (ab : str * str) : Prop :=
  (length (fst ab) < length (snd ab))%nat.

(** ** Sample inputs *)

(** An oracle in a world that counts the calls made: the second call
    raises, every other call answers. *)
Definition flaky_oracle (span : str) (calls : nat) : (string + Q * Q) * nat :=
  if Nat.eqb calls 1 then (inl "TimeoutError"%string, S calls)
  else (inr (0, 0), S calls).

(** An oracle that raises [what] on every span. *)
Definition failing_oracle (what : string) (span : str) (w : unit)
  : (string + Q * Q) * unit :=
  (inl what, w).

Definition with_marker : str :=
  lit "The result failed. Therefore the hypothesis is rejected.".

(** The same text without the word, and without the word and one of the two
    spaces around it. *)
Definition without_marker_gap : str :=
  lit "The result failed.  the hypothesis is rejected.".

Definition without_marker : str :=
  lit "The result failed. the hypothesis is rejected.".

Definition short_words : str := lit "A cat sat down.".

Definition longer_words : str := lit "A tiger sat down.".

(** The features [compute_features] returns when the oracle answers. *)
Definition features_with (text : str) : Features.t :=
  match compute_features steady_oracle text tt with
  | (Ok (f, _, _, _), _) => f
  | (Raise _, _) => Features.mk 0 0 0 0 0 0 0 0 0 0
  end.

(** ** Vocabulary of the further statements *)

(** A backslash followed by the letter n. *)
Definition backslash_n (a b : ascii) : bool :=
  Ascii.eqb a "\" && Ascii.eqb b "n".

(** Word characters and apostrophes only, a word character at both ends. *)
Definition well_formed_token (w : str) : bool :=
  forallb Re.in_token w && starts_with isword w && ends_with isword w.

(** The characters of a text that are not whitespace. *)
Definition visible (s : str) : str := filter (fun c => negb (isspace c)) s.

(** No word character before the next character that is neither a word
    character nor an apostrophe. *)
Fixpoint quiet (s : str) : bool :=
  match s with
  | [] => true
  | c :: r => if isword c then false else if Re.in_token c then quiet r else true
  end.

(** The scan is never inside a word: behind a word character, no word
    character follows before the next separator. *)
Definition at_rest (before : option ascii) (s : str) : Prop :=
  Re.isword_opt before = true -> quiet s = true.

(** The polarity and subjectivity of one entry of [sentiment_analysis]. *)
Definition sentiment_pair (si : Sentiment.t) : Q * Q :=
  (Sentiment.polarity si, Sentiment.subjectivity si).

(** The test both Streamlit front ends make before they post a text:
    [if not text or len(text.strip()) < 20] warns, otherwise the text is
    sent to the backend. *)
Definition client_sends (text : str) : bool :=
  negb (match text with [] => true | _ :: _ => false end
        || (len (strip text) <? 20)%Z).

(** * Properties *)

(** ** The model on sample inputs *)

Example tokenize_words_sample :
  tokenize_words (lit "The 'result' failed. Therefore don't  x'' a''b")
  = map lit ["the"; "result"; "failed"; "therefore"; "don't"; "x"; "a''b"]%string.
Proof. reflexivity. Qed.

Example split_sentences_sample :
  Re.split_sentences (strip (lit "a." ++ [nl; nl] ++ lit "b c?  d.e  f" ++ [nl] ++ lit "g! "))
  = [lit "a."; lit "b c?"; lit "d.e  f" ++ [nl] ++ lit "g!"].
Proof. reflexivity. Qed.

Example split_sentences_edges :
  Re.split_sentences [] = [[]]
  /\ Re.split_sentences (lit "a. ") = [lit "a."; []]
  /\ Re.split_sentences (lit " . a") = [lit " ."; lit "a"].
Proof. repeat split; reflexivity. Qed.

Example search_causal_sample :
  map Re.search_causal
      (map lit ["also so."; "also"; "sofa so-so"; "thus"; "a_so"; "becausex"]%string)
  = [true; false; true; true; false; false].
Proof. reflexivity. Qed.

Example replace2_sample :
  replace2 "\" "n" [" "] (lit "\\nn") = lit "\ n".
Proof. reflexivity. Qed.

Example round2_sample :
  round2 (1 # 8) == 12 # 100 /\ round2 (3 # 8) == 38 # 100 /\ round2 (2 # 3) == 67 # 100.
Proof. repeat split; reflexivity. Qed.

Example sort_desc_sample :
  sort_desc snd [(lit "a", 1); (lit "b", 2); (lit "c", 1); (lit "d", 2)]
  = [(lit "b", 2); (lit "d", 2); (lit "a", 1); (lit "c", 1)].
Proof. reflexivity. Qed.

Example analyze_sample :
  match analyze steady_oracle with_marker tt with
  | (Ok resp, _) =>
      Response.composite resp == 938 # 10
      /\ Response.language resp == 100
      /\ Response.top_flagged_sentences resp
         = [lit "The result failed."; lit "Therefore the hypothesis is rejected."]
  | (Raise _, _) => False
  end.
Proof. vm_compute. repeat split; reflexivity. Qed.

Example analyze_short_text :
  analyze steady_oracle (lit "   Too short.   ") tt = (Raise too_short, tt).
Proof. reflexivity. Qed.

(** ** Strings *)

Section StripFacts.

Lemma lstrip_split (s : str) :
  exists pre, s = pre ++ lstrip s /\ forallb isspace pre = true.
Proof.
  induction s as [|c r [pre [E F]]]; simpl.
  - exists []. auto.
  - destruct (isspace c) eqn:Hc.
    + exists (c :: pre). simpl. rewrite Hc, F. split; [f_equal; exact E | reflexivity].
    + exists []. auto.
Qed.

Lemma lstrip_head (s : str) (c : ascii) :
  hd_error (lstrip s) = Some c -> isspace c = false.
Proof.
  induction s as [|a r IH]; simpl; [discriminate|].
  destruct (isspace a) eqn:Ha; [exact IH|].
  simpl. intros [= <-]. exact Ha.
Qed.

Lemma lstrip_all_space (s : str) :
  forallb isspace s = true -> lstrip s = [].
Proof.
  induction s as [|a r IH]; simpl; [reflexivity|].
  destruct (isspace a); simpl; [exact IH | discriminate].
Qed.

Lemma lstrip_nil_all_space (s : str) :
  lstrip s = [] -> forallb isspace s = true.
Proof.
  induction s as [|a r IH]; simpl; [reflexivity|].
  destruct (isspace a); simpl; [exact IH | discriminate].
Qed.

Lemma strip_split (s : str) :
  exists pre post, s = pre ++ strip s ++ post.
Proof.
  unfold strip, rstrip.
  destruct (lstrip_split s) as [pre [E _]].
  destruct (lstrip_split (rev (lstrip s))) as [post [E' _]].
  exists pre, (rev post).
  rewrite <- rev_app_distr, <- E', rev_involutive. exact E.
Qed.

Lemma strip_nil_all_space (s : str) :
  strip s = [] -> forallb isspace s = true.
Proof.
  unfold strip, rstrip. intros H.
  assert (H1 : lstrip (rev (lstrip s)) = [])
    by (rewrite <- (rev_involutive (lstrip _)), H; reflexivity).
  apply lstrip_nil_all_space in H1.
  destruct (lstrip_split s) as [pre [E F]].
  rewrite E, forallb_app, F. simpl.
  rewrite forallb_forall in *. intros x Hx. apply H1, in_rev.
  rewrite rev_involutive. exact Hx.
Qed.

(** A stripped text does not begin with whitespace. *)
Lemma strip_head (s : str) (c : ascii) :
  hd_error (strip s) = Some c -> isspace c = false.
Proof.
  unfold strip, rstrip.
  destruct (lstrip_split (rev (lstrip s))) as [post [E _]].
  remember (lstrip (rev (lstrip s))) as m eqn:Hm.
  assert (E2 : lstrip s = rev m ++ rev post)
    by (rewrite <- rev_app_distr, <- E, rev_involutive; reflexivity).
  intros H. apply (lstrip_head s).
  rewrite E2. destruct (rev m); [discriminate | exact H].
Qed.

(** A stripped text does not end with whitespace. *)
Lemma strip_last (s : str) (c : ascii) :
  hd_error (rev (strip s)) = Some c -> isspace c = false.
Proof.
  unfold strip, rstrip. rewrite rev_involutive. apply lstrip_head.
Qed.

End StripFacts.

(** No whitespace character can be part of a word token, before or after
    lowering. *)
Lemma space_not_in_token (c : ascii) :
  isspace c = true -> Re.in_token (lower_char c) = false.
Proof.
  destruct c as [[] [] [] [] [] [] [] []]; vm_compute; congruence.
Qed.

Lemma match_token_outside (before : option ascii) (c : ascii) (r : str) :
  Re.in_token c = false -> Re.match_token before (c :: r) = None.
Proof.
  intros H. unfold Re.match_token. simpl. rewrite H.
  destruct (Re.word_boundary before (Some c)); reflexivity.
Qed.

Lemma findall_no_token (fuel : nat) (before : option ascii) (s : str) :
  forallb (fun c => negb (Re.in_token c)) s = true ->
  Re.findall_from fuel before s = [].
Proof.
  revert before s. induction fuel as [|f IH]; intros before s H; [reflexivity|].
  destruct s as [|c r]; [reflexivity|].
  simpl in H. apply andb_prop in H. destruct H as [Hc Hr].
  apply negb_true_iff in Hc.
  cbn [Re.findall_from]. rewrite (match_token_outside before c r Hc).
  apply IH, Hr.
Qed.

Lemma tokenize_words_blank (text : str) :
  forallb isspace text = true -> tokenize_words text = [].
Proof.
  intros H. unfold tokenize_words, Re.findall_tokens.
  apply findall_no_token. unfold lower.
  rewrite forallb_forall in *. intros x Hx.
  apply in_map_iff in Hx. destruct Hx as [c [<- Hc]].
  rewrite space_not_in_token; [reflexivity | apply H, Hc].
Qed.

Lemma sentence_split_blank (text : str) :
  strip text = [] -> sentence_split text = [].
Proof.
  intros H. unfold sentence_split. rewrite H. reflexivity.
Qed.

(** ** Segmenter: what a sentence can contain *)

Lemma adjacent_cons (R : ascii -> ascii -> bool) (a : ascii) (t : str) :
  adjacent R (a :: t) = starts_with (R a) t || adjacent R t.
Proof. destruct t; reflexivity. Qed.

Lemma adjacent_app (R : ascii -> ascii -> bool) (a b : str) :
  adjacent R (a ++ b) = false -> adjacent R a = false /\ adjacent R b = false.
Proof.
  induction a as [|x a IH]; [auto|].
  rewrite <- app_comm_cons, !adjacent_cons. intros H.
  apply orb_false_elim in H. destruct H as [H1 H2].
  destruct (IH H2) as [Ha Hb]. split; [|exact Hb].
  rewrite Ha, orb_false_r. destruct a; [reflexivity | exact H1].
Qed.

Lemma adjacent_weaken (R R' : ascii -> ascii -> bool) (s : str) :
  (forall a b, R a b = false -> R' a b = false) ->
  adjacent R s = false -> adjacent R' s = false.
Proof.
  intros HR. induction s as [|a t IH]; [reflexivity|].
  rewrite !adjacent_cons. intros H. apply orb_false_elim in H.
  destruct H as [H1 H2]. rewrite (IH H2), orb_false_r.
  destruct t; [reflexivity | apply HR, H1].
Qed.

Lemma skip_spaces_shorter (last : ascii) (s : str) :
  (length (snd (Re.skip_spaces last s)) <= length s)%nat.
Proof.
  revert last. induction s as [|c r IH]; intros last; simpl; [lia|].
  destruct (isspace c); simpl; [specialize (IH c); lia | lia].
Qed.

(** The text in front of the leftmost separator holds no whitespace that
    follows a terminator, and the text behind it is shorter. *)
Lemma find_separator_some (before : option ascii) (s piece rest : str) (last : ascii) :
  Re.find_separator before s = Some (piece, last, rest) ->
  adjacent space_after_terminator piece = false
  /\ starts_with (fun c => Re.after_terminator before && isspace c) piece = false
  /\ (length rest < length s)%nat.
Proof.
  revert before piece rest last.
  induction s as [|c r IH]; intros before piece rest last; simpl; [discriminate|].
  destruct (Re.after_terminator before && isspace c) eqn:Hm.
  - pose proof (skip_spaces_shorter c r) as Hlen.
    destruct (Re.skip_spaces c r) as [l' rest']. intros [= <- <- <-].
    simpl in *. repeat split; [lia].
  - destruct (Re.find_separator (Some c) r) as [[[piece' last'] rest']|] eqn:Hf;
      [|discriminate].
    intros [= <- <- <-].
    destruct (IH _ _ _ _ Hf) as [Ha [Hs Hl]].
    rewrite adjacent_cons, Ha, orb_false_r. simpl.
    repeat split; [|exact Hm|lia].
    destruct piece' as [|d p']; [reflexivity|]. exact Hs.
Qed.

Lemma find_separator_none (before : option ascii) (s : str) :
  Re.find_separator before s = None ->
  adjacent space_after_terminator s = false
  /\ starts_with (fun c => Re.after_terminator before && isspace c) s = false.
Proof.
  revert before.
  induction s as [|c r IH]; intros before; simpl; [auto|].
  destruct (Re.after_terminator before && isspace c) eqn:Hm.
  - destruct (Re.skip_spaces c r). discriminate.
  - destruct (Re.find_separator (Some c) r) as [[[piece' last'] rest']|] eqn:Hf;
      [discriminate|].
    intros _. destruct (IH _ Hf) as [Ha Hs].
    split; [|reflexivity].
    destruct r as [|d r']; [reflexivity|].
    change (space_after_terminator c d || adjacent space_after_terminator (d :: r') = false).
    rewrite Ha, orb_false_r. exact Hs.
Qed.

Lemma split_from_pieces (fuel : nat) (before : option ascii) (s : str) :
  (length s <= fuel)%nat ->
  Forall (fun piece => adjacent space_after_terminator piece = false)
         (Re.split_from fuel before s).
Proof.
  revert before s. induction fuel as [|f IH]; intros before s Hlen.
  - destruct s; [|simpl in Hlen; lia]. repeat constructor.
  - simpl. destruct (Re.find_separator before s) as [[[piece last] rest]|] eqn:Hf.
    + destruct (find_separator_some _ _ _ _ _ Hf) as [Ha [_ Hl]].
      constructor; [exact Ha|]. apply IH. lia.
    + constructor; [|constructor]. apply (find_separator_none _ _ Hf).
Qed.

Lemma newline_is_space (p c : ascii) :
  space_after_terminator p c = false -> newline_after_terminator p c = false.
Proof.
  unfold space_after_terminator, newline_after_terminator.
  destruct (Re.is_terminator p); [|reflexivity]. simpl.
  destruct (Ascii.eqb_spec c nl) as [->|]; [|reflexivity].
  vm_compute. congruence.
Qed.

Lemma replace2_step (a b : ascii) (new : str) (c d : ascii) (r : str) :
  replace2 a b new (c :: d :: r)
  = if Ascii.eqb c a && Ascii.eqb d b
    then new ++ replace2 a b new r
    else c :: replace2 a b new (d :: r).
Proof. reflexivity. Qed.

(** Replacing backslash-n by a space brings no newline behind a terminator. *)
Lemma replace2_newline (n : nat) (s : str) :
  (length s <= n)%nat ->
  adjacent newline_after_terminator s = false ->
  adjacent newline_after_terminator (replace2 "\" "n" [" "] s) = false
  /\ (forall p, starts_with (newline_after_terminator p) s = false ->
                starts_with (newline_after_terminator p)
                            (replace2 "\" "n" [" "] s) = false).
Proof.
  revert s. induction n as [|n IH]; intros s Hlen Hs.
  - destruct s; [|simpl in Hlen; lia]. auto.
  - destruct s as [|c [|d r]]; [auto | auto |].
    rewrite replace2_step.
    rewrite adjacent_cons in Hs. apply orb_false_elim in Hs.
    destruct Hs as [Hcd Ht].
    destruct (Ascii.eqb c "\" && Ascii.eqb d "n") eqn:Hm.
    + assert (Hr : adjacent newline_after_terminator r = false).
      { rewrite adjacent_cons in Ht. apply orb_false_elim in Ht. apply Ht. }
      destruct (IH r) as [Ha _]; [simpl in Hlen; lia | exact Hr |].
      split.
      * change ([" "] ++ replace2 "\" "n" [" "] r)
          with (" " :: replace2 "\" "n" [" "] r).
        rewrite adjacent_cons, Ha, orb_false_r.
        destruct (replace2 "\" "n" [" "] r); reflexivity.
      * intros p _. simpl. unfold newline_after_terminator.
        apply andb_false_r.
    + destruct (IH (d :: r)) as [Ha Hh]; [simpl in *; lia | exact Ht |].
      split.
      * rewrite adjacent_cons, Ha, orb_false_r. apply Hh. exact Hcd.
      * intros p Hp. exact Hp.
Qed.

Lemma strip_adjacent (R : ascii -> ascii -> bool) (s : str) :
  adjacent R s = false -> adjacent R (strip s) = false.
Proof.
  destruct (strip_split s) as [pre [post E]]. intros H.
  rewrite E in H. apply adjacent_app in H. destruct H as [_ H].
  apply adjacent_app in H. apply H.
Qed.

Lemma strip_starts (s : str) : starts_with isspace (strip s) = false.
Proof.
  destruct (strip s) as [|c r] eqn:E; [reflexivity|].
  simpl. apply (strip_head s). rewrite E. reflexivity.
Qed.

Lemma strip_ends (s : str) : ends_with isspace (strip s) = false.
Proof.
  unfold ends_with. destruct (rev (strip s)) as [|c r] eqn:E; [reflexivity|].
  simpl. apply (strip_last s). rewrite E. reflexivity.
Qed.

Lemma starts_with_weaken (P P' : ascii -> bool) (s : str) :
  (forall c, P c = false -> P' c = false) ->
  starts_with P s = false -> starts_with P' s = false.
Proof. intros H. destruct s; [reflexivity | apply H]. Qed.

Lemma newline_isspace (c : ascii) : isspace c = false -> is_newline c = false.
Proof.
  unfold is_newline. destruct (Ascii.eqb_spec c nl) as [->|]; [|reflexivity].
  vm_compute. congruence.
Qed.

(** More rounds than [length s] change nothing in [re.split]. *)
Lemma split_from_enough (fuel fuel' : nat) (before : option ascii) (s : str) :
  (length s <= fuel)%nat -> (length s <= fuel')%nat ->
  Re.split_from fuel before s = Re.split_from fuel' before s.
Proof.
  revert fuel' before s.
  induction fuel as [|f IH]; intros fuel' before s H H'.
  - destruct s; [|simpl in H; lia]. destruct fuel'; reflexivity.
  - destruct fuel' as [|f'].
    + destruct s; [|simpl in H'; lia]. reflexivity.
    + simpl. destruct (Re.find_separator before s) as [[[piece last] rest]|] eqn:Hf;
        [|reflexivity].
      destruct (find_separator_some _ _ _ _ _ Hf) as [_ [_ Hl]].
      f_equal. apply IH; lia.
Qed.

Lemma take_run_app (acc s taken rest : str) :
  Re.take_run acc s = (taken, rest) -> rev taken ++ rest = rev acc ++ s.
Proof.
  revert acc. induction s as [|c r IH]; intros acc; simpl.
  - intros [= <- <-]. reflexivity.
  - destruct (Re.in_token c).
    + intros H. rewrite (IH _ H). simpl. rewrite <- app_assoc. reflexivity.
    + intros [= <- <-]. reflexivity.
Qed.

Lemma give_back_app (taken rest tok rest' : str) (last : ascii) :
  Re.give_back taken rest = Some (tok, last, rest') ->
  tok ++ rest' = rev taken ++ rest /\ (0 < length tok)%nat.
Proof.
  revert rest. induction taken as [|c t IH]; intros rest; simpl; [discriminate|].
  destruct (Re.word_boundary (Some c) (hd_error rest)).
  - intros [= <- _ <-]. split; [reflexivity|].
    rewrite length_app. simpl. lia.
  - intros H. destruct (IH _ H) as [E L]. split; [|exact L].
    rewrite E, <- app_assoc. reflexivity.
Qed.

(** A token is never empty, so the text behind a match is shorter. *)
Lemma match_token_shorter (before : option ascii) (s tok rest : str) (last : ascii) :
  Re.match_token before s = Some (tok, last, rest) ->
  (0 < length tok)%nat /\ s = tok ++ rest.
Proof.
  unfold Re.match_token.
  destruct (Re.word_boundary before (hd_error s)); [|discriminate].
  destruct (Re.take_run [] s) as [taken rest0] eqn:Ht.
  intros H. apply take_run_app in Ht. apply give_back_app in H.
  destruct H as [E L]. split; [exact L|].
  rewrite E, Ht. reflexivity.
Qed.

(** More rounds than [length s] change nothing in [re.findall]. *)
Lemma findall_from_enough (fuel fuel' : nat) (before : option ascii) (s : str) :
  (length s <= fuel)%nat -> (length s <= fuel')%nat ->
  Re.findall_from fuel before s = Re.findall_from fuel' before s.
Proof.
  revert fuel' before s.
  induction fuel as [|f IH]; intros fuel' before s H H'.
  - destruct s; [|simpl in H; lia]. destruct fuel'; reflexivity.
  - destruct s as [|c r]; [destruct fuel'; reflexivity|].
    destruct fuel' as [|f']; [simpl in H'; lia|].
    cbn [Re.findall_from].
    destruct (Re.match_token before (c :: r)) as [[[tok last] rest]|] eqn:Hm.
    + destruct (match_token_shorter _ _ _ _ _ Hm) as [L E].
      apply (f_equal (@length ascii)) in E. rewrite length_app in E.
      f_equal. apply IH; simpl in *; lia.
    + apply IH; simpl in *; lia.
Qed.

(** X1: Every sentence is a stripped text. *)
Lemma sentence_split_stripped (text : str) :
  Forall (fun s => starts_with isspace s = false /\ ends_with isspace s = false)
         (sentence_split text).
Proof.
  unfold sentence_split. apply Forall_map, Forall_forall.
  intros s _. split; [apply strip_starts | apply strip_ends].
Qed.

(** C4 (the code departs from the claim): the Segmenter tests a candidate for
    emptiness before it replaces backslash-n by a space and strips, so a
    candidate made of a backslash-n only is kept and comes out as the empty
    sentence. *)
Theorem sentence_split_keeps_empty_sentence :
  sentence_split (lit "It works. \n") = [lit "It works."; []]
  /\ In [] (sentence_split (lit "It works. \n")).
Proof. vm_compute. auto. Qed.

(** C5 (the code departs from the claim): the Segmenter replaces the two
    characters backslash and n, never the newline character, so a newline
    that does not follow a [.], [!] or [?] stays inside its sentence. *)
Theorem sentence_split_keeps_newline :
  sentence_split (lit "First line of text" ++ [nl] ++ lit "second line of text.")
  = [lit "First line of text" ++ [nl] ++ lit "second line of text."]
  /\ existsb (existsb is_newline)
       (sentence_split (lit "First line of text" ++ [nl] ++ lit "second line of text."))
     = true.
Proof. split; reflexivity. Qed.

(** X22: for every input text, no sentence returned by the Segmenter has a
    newline character directly behind a [.], [!] or [?], and none begins or
    ends with a newline. *)
Theorem sentence_split_newlines (text : str) :
  Forall (fun s => adjacent newline_after_terminator s = false
                   /\ starts_with is_newline s = false
                   /\ ends_with is_newline s = false)
         (sentence_split text).
Proof.
  unfold sentence_split. apply Forall_map, Forall_forall.
  intros s Hs. apply filter_In in Hs. destruct Hs as [Hs _].
  pose proof (split_from_pieces (length (strip text)) None (strip text) (le_n _)) as HF.
  rewrite Forall_forall in HF. specialize (HF s Hs).
  repeat split.
  - apply strip_adjacent.
    apply (replace2_newline (length s) s (le_n _)).
    revert HF. apply adjacent_weaken. exact newline_is_space.
  - generalize (strip_starts (replace2 "\" "n" [" "] s)).
    apply starts_with_weaken. exact newline_isspace.
  - generalize (strip_ends (replace2 "\" "n" [" "] s)).
    unfold ends_with. apply starts_with_weaken. exact newline_isspace.
Qed.

(** ** Numbers *)

Ltac split_minmax :=
  repeat match goal with
         | |- context [Qmax ?a ?b] =>
             let H := fresh "Hmax" in
             destruct (Q.max_spec a b) as [[? H]|[? H]]; rewrite H in *
         | |- context [Qmin ?a ?b] =>
             let H := fresh "Hmin" in
             destruct (Q.min_spec a b) as [[? H]|[? H]]; rewrite H in *
         end.

Lemma truediv_ok (a b : Q) : ~ b == 0 -> truediv a b = Ok (a / b).
Proof.
  intros H. unfold truediv. destruct (Qeq_bool b 0) eqn:E; [|reflexivity].
  apply Qeq_bool_iff in E. contradiction.
Qed.

Lemma len_nonneg {A : Type} (l : list A) : (0 <= len l)%Z.
Proof. unfold len. lia. Qed.

Lemma len_cons_pos {A : Type} (a : A) (l : list A) : (0 < len (a :: l))%Z.
Proof. unfold len. simpl length. lia. Qed.

Lemma len_filter_le {A : Type} (f : A -> bool) (l : list A) :
  (len (filter f l) <= len l)%Z.
Proof.
  unfold len. apply inj_le. induction l as [|a l IH]; simpl; [lia|].
  destruct (f a); simpl; lia.
Qed.

Lemma len_distinct_le (ws : list str) : (len (distinct ws) <= len ws)%Z.
Proof.
  unfold len, distinct. apply inj_le.
  induction ws as [|w ws IH]; simpl; [lia|].
  destruct (in_dec str_eq_dec w ws); simpl; lia.
Qed.

Lemma len_distinct_pos (w : str) (ws : list str) : (0 < len (distinct (w :: ws)))%Z.
Proof.
  unfold len, distinct.
  assert (H : In w (nodup str_eq_dec (w :: ws))) by (apply nodup_In; left; reflexivity).
  destruct (nodup str_eq_dec (w :: ws)); [destruct H | simpl length; lia].
Qed.

Lemma sumZ_nonneg (l : list Z) : Forall (fun z => 0 <= z)%Z l -> (0 <= sumZ l)%Z.
Proof. induction 1; simpl; lia. Qed.

Lemma sumZ_lens_nonneg {A : Type} (f : A -> list str) (l : list A) :
  (0 <= sumZ (map (fun a => len (f a)) l))%Z.
Proof.
  apply sumZ_nonneg, Forall_map, Forall_forall. intros a _. apply len_nonneg.
Qed.

Lemma sumZ_words_nonneg (ws : list str) : (0 <= sumZ (map len ws))%Z.
Proof.
  apply sumZ_nonneg, Forall_map, Forall_forall. intros a _. apply len_nonneg.
Qed.

Lemma sq_nonneg (x : Q) : 0 <= sq x.
Proof. unfold sq. destruct (Qlt_le_dec x 0); nra. Qed.

Lemma sumQ_sq_nonneg (m : Q) (l : list Z) :
  0 <= sumQ (map (fun z => sq (inject_Z z - m)) l).
Proof.
  induction l as [|z l IH]; simpl; [lra|].
  pose proof (sq_nonneg (inject_Z z - m)). lra.
Qed.

(** A quotient of integers, the divisor positive. *)
Lemma quotient_ok (a b : Z) :
  (0 < b)%Z -> truediv (inject_Z a) (inject_Z b) = Ok (inject_Z a / inject_Z b).
Proof.
  intros Hb. apply truediv_ok. intros E.
  assert (H : inject_Z 0 < inject_Z b) by (rewrite <- Zlt_Qlt; exact Hb).
  change (inject_Z 0) with 0 in H. lra.
Qed.

Lemma quotient_nonneg (a b : Q) : 0 <= a -> 0 < b -> 0 <= a / b.
Proof. intros Ha Hb. apply Qle_shift_div_l; lra. Qed.

Lemma quotient_le_1 (a b : Q) : a <= b -> 0 < b -> a / b <= 1.
Proof. intros Ha Hb. apply Qle_shift_div_r; lra. Qed.

Lemma quotient_pos (a b : Q) : 0 < a -> 0 < b -> 0 < a / b.
Proof. intros Ha Hb. apply Qlt_shift_div_l; lra. Qed.

Lemma inject_Z_pos (z : Z) : (0 < z)%Z -> 0 < inject_Z z.
Proof. intros H. change 0 with (inject_Z 0). rewrite <- Zlt_Qlt. exact H. Qed.

Lemma inject_Z_nonneg (z : Z) : (0 <= z)%Z -> 0 <= inject_Z z.
Proof. intros H. change 0 with (inject_Z 0). rewrite <- Zle_Qle. exact H. Qed.

Lemma inject_Z_le (a b : Z) : (a <= b)%Z -> inject_Z a <= inject_Z b.
Proof. intros H. rewrite <- Zle_Qle. exact H. Qed.

(** ** Rounding *)

Lemma round_half_even_cases (q : Q) :
  let f := Qfloor q in
  let r := q - inject_Z f in
  0 <= r /\ r < 1
  /\ ((r < 1 # 2 /\ round_half_even q = f)
      \/ (1 # 2 < r /\ round_half_even q = (f + 1)%Z)
      \/ (r == 1 # 2 /\ Z.even f = true /\ round_half_even q = f)
      \/ (r == 1 # 2 /\ Z.even f = false /\ round_half_even q = (f + 1)%Z)).
Proof.
  intros f r. subst f r.
  pose proof (Qfloor_le q) as Hlo. pose proof (Qlt_floor q) as Hhi.
  rewrite inject_Z_plus in Hhi. change (inject_Z 1) with 1 in Hhi.
  split; [lra|]. split; [lra|].
  unfold round_half_even.
  destruct (Qcompare (q - inject_Z (Qfloor q)) (1 # 2)) eqn:C.
  - apply Qeq_alt in C. destruct (Z.even (Qfloor q)); auto 6.
  - apply Qlt_alt in C. auto.
  - apply Qgt_alt in C. auto.
Qed.

Lemma round_half_even_mono (x y : Q) :
  x <= y -> (round_half_even x <= round_half_even y)%Z.
Proof.
  intros Hxy.
  pose proof (Qfloor_resp_le x y Hxy) as Hf.
  destruct (round_half_even_cases x) as [Hx0 [Hx1 Hx]].
  destruct (round_half_even_cases y) as [Hy0 [Hy1 Hy]].
  cbv zeta in *.
  destruct (Z.eq_dec (Qfloor x) (Qfloor y)) as [E|NE].
  - rewrite E in *.
    destruct Hx as [[? ->]|[[? ->]|[[? [? ->]]|[? [? ->]]]]];
      destruct Hy as [[? ->]|[[? ->]|[[? [? ->]]|[? [? ->]]]]];
      try lia; try lra; congruence.
  - assert (Qfloor x + 1 <= Qfloor y)%Z by lia.
    destruct Hx as [[? ->]|[[? ->]|[[? [? ->]]|[? [? ->]]]]];
      destruct Hy as [[? ->]|[[? ->]|[[? [? ->]]|[? [? ->]]]]]; lia.
Qed.

Lemma round_half_even_Z (z : Z) : round_half_even (inject_Z z) = z.
Proof.
  destruct (round_half_even_cases (inject_Z z)) as [_ [_ H]].
  cbv zeta in H. rewrite Qfloor_Z in H.
  destruct H as [[? ->]|[[? ->]|[[? [? ->]]|[? [? ->]]]]]; try reflexivity; lra.
Qed.

Lemma round2_mono (x y : Q) : x <= y -> round2 x <= round2 y.
Proof.
  intros H. unfold round2.
  assert (Hm : (round_half_even (x * 100) <= round_half_even (y * 100))%Z)
    by (apply round_half_even_mono; lra).
  apply inject_Z_le in Hm. unfold Qdiv. 
  apply Qmult_le_compat_r; [exact Hm | discriminate].
Qed.

Lemma round2_0 : round2 0 == 0.
Proof. reflexivity. Qed.

Lemma round2_100 : round2 100 == 100.
Proof. reflexivity. Qed.

Lemma round2_range (x : Q) : 0 <= x <= 100 -> 0 <= round2 x <= 100.
Proof.
  intros [H0 H1]. split.
  - rewrite <- round2_0. apply round2_mono, H0.
  - rewrite <- round2_100. apply round2_mono, H1.
Qed.

(** ** Feature extractor: every formula returns, and within its range *)

Lemma type_token_ratio_range (words : list str) :
  exists r, type_token_ratio words = Ok r /\ 0 <= r <= 1.
Proof.
  destruct words as [|w ws].
  - exists 0. split; [reflexivity | lra].
  - unfold type_token_ratio.
    rewrite (quotient_ok _ _ (len_cons_pos w ws)).
    eexists. split; [reflexivity|].
    pose proof (inject_Z_pos _ (len_cons_pos w ws)).
    pose proof (inject_Z_nonneg _ (len_nonneg (distinct (w :: ws)))).
    pose proof (inject_Z_le _ _ (len_distinct_le (w :: ws))).
    split; [apply quotient_nonneg | apply quotient_le_1]; assumption.
Qed.

Lemma lexical_sophistication_range (words : list str) :
  exists r, lexical_sophistication words = Ok r /\ 0 <= r <= 1.
Proof.
  destruct words as [|w ws].
  - exists 0. split; [reflexivity | lra].
  - unfold lexical_sophistication.
    rewrite (quotient_ok _ _ (len_cons_pos w ws)).
    eexists. split; [reflexivity|].
    pose proof (inject_Z_pos _ (len_cons_pos w ws)).
    set (f := fun w0 : str => (6 <? len w0)%Z).
    pose proof (inject_Z_nonneg _ (len_nonneg (filter f (w :: ws)))).
    pose proof (inject_Z_le _ _ (len_filter_le f (w :: ws))).
    split; [apply quotient_nonneg | apply quotient_le_1]; assumption.
Qed.

Lemma avg_word_length_nonneg (words : list str) :
  exists r, avg_word_length words = Ok r /\ 0 <= r.
Proof.
  destruct words as [|w ws].
  - exists 0. split; [reflexivity | lra].
  - unfold avg_word_length.
    rewrite (quotient_ok _ _ (len_cons_pos w ws)).
    eexists. split; [reflexivity|].
    apply quotient_nonneg.
    + apply inject_Z_nonneg, sumZ_words_nonneg.
    + apply inject_Z_pos, len_cons_pos.
Qed.

Lemma avg_sentence_length_nonneg (sentences : list str) :
  exists r, avg_sentence_length sentences = Ok r /\ 0 <= r.
Proof.
  destruct sentences as [|s ss].
  - exists 0. split; [reflexivity | lra].
  - unfold avg_sentence_length.
    remember (s :: ss) as l eqn:El.
    assert (Hpos : (0 < len (map (fun s0 => len (tokenize_words s0)) l))%Z)
      by (subst l; apply len_cons_pos).
    destruct l as [|x l']; [discriminate|].
    rewrite (quotient_ok _ _ Hpos).
    eexists. split; [reflexivity|].
    apply quotient_nonneg.
    + apply inject_Z_nonneg, sumZ_lens_nonneg.
    + apply inject_Z_pos, Hpos.
Qed.

Lemma coherence_score_range (sentences : list str) :
  exists r, coherence_score sentences = Ok r /\ 0 <= r <= 1.
Proof.
  destruct sentences as [|s ss].
  - exists 0. split; [reflexivity | lra].
  - unfold coherence_score.
    remember (s :: ss) as l eqn:El.
    set (lens := map (fun s0 => len (tokenize_words s0)) l).
    assert (Hpos : (0 < len lens)%Z) by (subst lens l; apply len_cons_pos).
    destruct l as [|x l']; [discriminate|]. fold lens.
    pose proof (inject_Z_pos _ Hpos) as Hn.
    rewrite (quotient_ok _ _ Hpos). cbn [bind].
    set (mean := inject_Z (sumZ lens) / inject_Z (len lens)).
    assert (Hmean : 0 <= mean).
    { apply quotient_nonneg; [|exact Hn].
      apply inject_Z_nonneg. subst lens. apply sumZ_lens_nonneg. }
    rewrite (truediv_ok _ (inject_Z (len lens))) by lra. cbn [bind].
    set (var := sumQ _ / _).
    assert (Hvar : 0 <= var).
    { apply quotient_nonneg; [apply sumQ_sq_nonneg | exact Hn]. }
    assert (Hden : 0 < sq (mean + 1)) by (unfold sq; nra).
    rewrite (truediv_ok var (sq (mean + 1))) by lra. cbn [bind].
    eexists. split; [reflexivity|].
    pose proof (quotient_nonneg _ _ Hvar Hden).
    split_minmax; lra.
Qed.

Lemma reasoning_proxy_range (sentences words : list str) :
  exists r, reasoning_proxy sentences words = Ok r /\ 0 <= r <= 1.
Proof.
  unfold reasoning_proxy.
  assert (Hs : (0 < len sentences + 1)%Z) by (pose proof (len_nonneg sentences); lia).
  assert (Hw : (0 < len words + 1)%Z) by (pose proof (len_nonneg words); lia).
  rewrite (quotient_ok _ _ Hs). cbn [bind].
  rewrite (quotient_ok _ _ Hw). cbn [bind].
  eexists. split; [reflexivity|].
  split_minmax; lra.
Qed.

(** The Scorer on features in their documented ranges. *)
Lemma score_paper_range (f : Features.t) :
  0 <= Features.ttr f -> 0 <= Features.lex_soph f -> 0 <= Features.avg_word_len f ->
  0 <= Features.coherence f <= 1 -> 0 <= Features.reasoning_proxy f <= 1 ->
  exists sc, score_paper f = Ok sc
             /\ 0 <= Scores.language sc <= 100
             /\ 0 <= Scores.coherence sc <= 100
             /\ 0 <= Scores.reasoning sc <= 100
             /\ 0 <= Scores.composite sc <= 100.
Proof.
  intros Ht Hl Ha Hc Hr. unfold score_paper.
  rewrite truediv_ok by discriminate. cbn [bind].
  eexists. split; [reflexivity|]. cbn [Scores.language Scores.coherence Scores.reasoning Scores.composite].
  assert (Hw : 0 <= Features.avg_word_len f / 5) by (apply quotient_nonneg; lra).
  set (w := Features.avg_word_len f / 5) in *.
  assert (Hlang : 0 <= 100 * ((2 # 10) * Qmin 1 (Features.ttr f * (15 # 10))
                     + (3 # 10) * Qmin 1 (Features.lex_soph f * 3)
                     + (5 # 10) * Qmin 1 w) <= 100)
    by (split_minmax; lra).
  set (lang := 100 * _) in *.
  repeat split; apply round2_range; lra.
Qed.

(** ** The pipeline *)

Section PipelineFacts.

Variable World : Type.
Variable oracle : str -> World -> (string + Q * Q) * World.

Lemma sentence_sentiments_cases (sentences : list str) (w : World) :
  match for_eachM World (sentence_sentiment World oracle) sentences w with
  | (Ok ss, _) => map Sentiment.text ss = sentences
  | (Raise e, _) => exists what, e = OracleRaised what
  end.
Proof.
  revert w. induction sentences as [|s r IH]; intros w; [reflexivity|].
  cbn [for_eachM]. unfold bindM at 1. unfold sentence_sentiment at 1.
  unfold bindM at 1. unfold sentiment.
  destruct (oracle s w) as [[what|ps] w1].
  - eauto.
  - unfold ret at 1. unfold bindM.
    specialize (IH w1).
    destruct (for_eachM World (sentence_sentiment World oracle) r w1) as [[ss|e] w2].
    + unfold ret. simpl. f_equal. exact IH.
    + exact IH.
Qed.

(** [compute_features] raises only what the oracle raises; when it returns,
    the features are the ones of the text. *)
Lemma compute_features_cases (text : str) (w : World) :
  match compute_features oracle text w with
  | (Ok (f, sentences, words, ss), _) =>
      features_of text f
      /\ sentences = sentence_split text
      /\ words = tokenize_words text
      /\ map Sentiment.text ss = sentences
  | (Raise e, _) => exists what, e = OracleRaised what
  end.
Proof.
  unfold compute_features.
  destruct (avg_sentence_length_nonneg (sentence_split text)) as [asl [E1 _]].
  destruct (avg_word_length_nonneg (tokenize_words text)) as [awl [E2 _]].
  destruct (type_token_ratio_range (tokenize_words text)) as [ttr [E3 _]].
  destruct (lexical_sophistication_range (tokenize_words text)) as [ls [E4 _]].
  destruct (coherence_score_range (sentence_split text)) as [coh [E5 _]].
  destruct (reasoning_proxy_range (sentence_split text) (tokenize_words text))
    as [rp [E6 _]].
  rewrite E1, E2, E3, E4, E5, E6.
  unfold bindM, lift, sentiment.
  destruct (oracle text w) as [[what|ps] w1]; [eauto|].
  pose proof (sentence_sentiments_cases (sentence_split text) w1) as Hs.
  destruct (for_eachM World (sentence_sentiment World oracle) (sentence_split text) w1)
    as [[ss|e] w2]; [|exact Hs].
  unfold ret. unfold features_of. cbn.
  rewrite E1, E2, E3, E4, E5, E6. auto 12.
Qed.

End PipelineFacts.

Lemma Ok_inj {A : Type} (a b : A) : Ok a = Ok b -> a = b.
Proof. intros [= H]. exact H. Qed.

Lemma features_of_range (text : str) (f : Features.t) :
  features_of text f ->
  0 <= Features.ttr f <= 1
  /\ 0 <= Features.lex_soph f <= 1
  /\ 0 <= Features.coherence f <= 1
  /\ 0 <= Features.reasoning_proxy f <= 1
  /\ 0 <= Features.avg_word_len f
  /\ 0 <= Features.avg_sentence_len f
  /\ (0 <= Features.word_count f)%Z
  /\ (0 <= Features.sentence_count f)%Z.
Proof.
  intros (Hwc & Hsc & Hasl & Hawl & Httr & Hls & Hcoh & Hrp).
  destruct (type_token_ratio_range (tokenize_words text)) as [r1 [E1 R1]].
  destruct (lexical_sophistication_range (tokenize_words text)) as [r2 [E2 R2]].
  destruct (coherence_score_range (sentence_split text)) as [r3 [E3 R3]].
  destruct (reasoning_proxy_range (sentence_split text) (tokenize_words text))
    as [r4 [E4 R4]].
  destruct (avg_word_length_nonneg (tokenize_words text)) as [r5 [E5 R5]].
  destruct (avg_sentence_length_nonneg (sentence_split text)) as [r6 [E6 R6]].
  rewrite Httr in E1. rewrite Hls in E2. rewrite Hcoh in E3.
  rewrite Hrp in E4. rewrite Hawl in E5. rewrite Hasl in E6.
  apply Ok_inj in E1, E2, E3, E4, E5, E6. subst.
  rewrite Hwc, Hsc.
  repeat split; try tauto; apply len_nonneg.
Qed.

(** C3: for every input text the features that come out have [ttr],
    [lex_soph], [coherence] and [reasoning_proxy] in [0,1] and the two counts
    non-negative; the only exception that can come out instead is one the
    sentiment oracle raised. *)
Theorem features_in_range (World : Type)
    (oracle : str -> World -> (string + Q * Q) * World) (text : str) (w : World) :
  match compute_features oracle text w with
  | (Ok (f, _, _, _), _) =>
      0 <= Features.ttr f <= 1
      /\ 0 <= Features.lex_soph f <= 1
      /\ 0 <= Features.coherence f <= 1
      /\ 0 <= Features.reasoning_proxy f <= 1
      /\ (0 <= Features.word_count f)%Z
      /\ (0 <= Features.sentence_count f)%Z
  | (Raise e, _) => exists what, e = OracleRaised what
  end.
Proof.
  pose proof (compute_features_cases World oracle text w) as H.
  destruct (compute_features oracle text w) as [[[[[f sentences] words] ss]|e] w'];
    [|exact H].
  destruct H as [Hf _].
  apply features_of_range in Hf. tauto.
Qed.

(** C1: for every input text, [score_paper] on the features computed from it
    returns (no exception), and [language], [coherence], [reasoning] and
    [composite] all lie in [0,100]; the only exception [compute_features] can
    raise instead is one the sentiment oracle raised. *)
Theorem scores_in_range (World : Type)
    (oracle : str -> World -> (string + Q * Q) * World) (text : str) (w : World) :
  match compute_features oracle text w with
  | (Ok (f, _, _, _), _) =>
      exists sc, score_paper f = Ok sc
                 /\ 0 <= Scores.language sc <= 100
                 /\ 0 <= Scores.coherence sc <= 100
                 /\ 0 <= Scores.reasoning sc <= 100
                 /\ 0 <= Scores.composite sc <= 100
  | (Raise e, _) => exists what, e = OracleRaised what
  end.
Proof.
  pose proof (compute_features_cases World oracle text w) as H.
  destruct (compute_features oracle text w) as [[[[[f sentences] words] ss]|e] w'];
    [|exact H].
  destruct H as [Hf _].
  apply features_of_range in Hf.
  apply score_paper_range; tauto.
Qed.

(** C2, as stated, fails: on a text of three spaces [reasoning_proxy] is 1/2,
    not 0, and [composite] is 15, not 0. *)
Lemma blank_text_is_not_all_zero :
  exists f sc,
    strip (lit "   ") = []
    /\ compute_features steady_oracle (lit "   ") tt = (Ok (f, [], [], []), tt)
    /\ score_paper f = Ok sc
    /\ ~ Features.reasoning_proxy f == 0
    /\ ~ Scores.composite sc == 0.
Proof.
  eexists. eexists.
  split; [reflexivity|].
  split; [vm_compute; reflexivity|].
  split; [vm_compute; reflexivity|].
  split; vm_compute; discriminate.
Qed.

(** C2, amended: for every input text that is empty or whitespace only, the
    features have [word_count = 0], [sentence_count = 0], [ttr], [lex_soph]
    and [coherence] equal to 0 and [reasoning_proxy] equal to 1/2, and the
    ScoreSet has [composite = 15]; the only exception that can come out
    instead is one the sentiment oracle raised. *)
Theorem blank_text_features (World : Type)
    (oracle : str -> World -> (string + Q * Q) * World) (text : str) (w : World) :
  strip text = [] ->
  match compute_features oracle text w with
  | (Ok (f, sentences, words, _), _) =>
      sentences = [] /\ words = []
      /\ Features.word_count f = 0%Z
      /\ Features.sentence_count f = 0%Z
      /\ Features.ttr f == 0
      /\ Features.lex_soph f == 0
      /\ Features.coherence f == 0
      /\ Features.reasoning_proxy f == 1 # 2
      /\ exists sc, score_paper f = Ok sc /\ Scores.composite sc == 15
  | (Raise e, _) => exists what, e = OracleRaised what
  end.
Proof.
  intros Hblank.
  pose proof (compute_features_cases World oracle text w) as H.
  destruct (compute_features oracle text w) as [[[[[f sentences] words] ss]|e] w'];
    [|exact H].
  destruct H as [Hf [Hs [Hw _]]].
  rewrite (sentence_split_blank text Hblank) in Hs.
  rewrite (tokenize_words_blank text (strip_nil_all_space text Hblank)) in Hw.
  unfold features_of in Hf.
  rewrite (sentence_split_blank text Hblank) in Hf.
  rewrite (tokenize_words_blank text (strip_nil_all_space text Hblank)) in Hf.
  destruct Hf as (Hwc & Hsc & Hasl & Hawl & Httr & Hls & Hcoh & Hrp).
  destruct f as [wc sc asl awl ttr ls coh rp pol subj]. cbn in *.
  apply Ok_inj in Hasl, Hawl, Httr, Hls, Hcoh. vm_compute in Hrp.
  apply Ok_inj in Hrp. subst.
  repeat split; try reflexivity.
  eexists. split; vm_compute; reflexivity.
Qed.

Lemma blank_text_features_witness :
  strip (lit "  ") = []
  /\ match compute_features steady_oracle (lit "  ") tt with
     | (Ok (f, sentences, words, _), _) =>
         sentences = [] /\ words = []
         /\ Features.word_count f = 0%Z
         /\ Features.sentence_count f = 0%Z
         /\ Features.ttr f == 0
         /\ Features.lex_soph f == 0
         /\ Features.coherence f == 0
         /\ Features.reasoning_proxy f == 1 # 2
         /\ exists sc, score_paper f = Ok sc /\ Scores.composite sc == 15
     | (Raise e, _) => exists what, e = OracleRaised what
     end.
Proof.
  split; [reflexivity|].
  apply (blank_text_features unit steady_oracle (lit "  ") tt). reflexivity.
Defined.

(** ** The sort of the Sentence Flagger *)

Lemma gtb_true (a b : Q) : gtb a b = true -> b < a.
Proof.
  unfold gtb. intros H. apply negb_true_iff in H.
  destruct (Qlt_le_dec b a) as [|Hle]; [assumption|].
  apply Qle_bool_iff in Hle. congruence.
Qed.

Lemma gtb_false (a b : Q) : gtb a b = false -> a <= b.
Proof.
  unfold gtb. intros H. apply negb_false_iff in H. apply Qle_bool_iff, H.
Qed.

Section SortFacts.

Context {A : Type} (key : A -> Q).

Lemma insert_desc_perm (x : A) (l : list A) :
  Permutation (x :: l) (insert_desc key x l).
Proof.
  induction l as [|y r IH]; simpl; [reflexivity|].
  destruct (gtb (key y) (key x)); [|reflexivity].
  rewrite perm_swap. apply perm_skip, IH.
Qed.

Lemma sort_desc_perm (l : list A) : Permutation l (sort_desc key l).
Proof.
  induction l as [|x l IH]; simpl; [reflexivity|].
  rewrite <- insert_desc_perm. apply perm_skip, IH.
Qed.

Lemma insert_desc_sorted (x : A) (l : list A) :
  StronglySorted (descending key) l ->
  StronglySorted (descending key) (insert_desc key x l).
Proof.
  induction 1 as [|y r Hr IH Hy]; simpl.
  - repeat constructor.
  - destruct (gtb (key y) (key x)) eqn:G.
    + apply gtb_true in G. constructor; [exact IH|].
      apply (Permutation_Forall (insert_desc_perm x r)).
      constructor; [unfold descending; lra | exact Hy].
    + apply gtb_false in G. constructor; [constructor; assumption|].
      constructor; [exact G|].
      revert Hy. apply Forall_impl. unfold descending. intros z Hz. lra.
Qed.

Lemma sort_desc_sorted (l : list A) :
  StronglySorted (descending key) (sort_desc key l).
Proof.
  induction l as [|x l IH]; simpl; [constructor | apply insert_desc_sorted, IH].
Qed.

Lemma insert_desc_stable (p : Q) (x : A) (l : list A) :
  filter (same_key key p) (insert_desc key x l) = filter (same_key key p) (x :: l).
Proof.
  induction l as [|y r IH]; [reflexivity|].
  cbn [insert_desc]. destruct (gtb (key y) (key x)) eqn:G; [|reflexivity].
  apply gtb_true in G. cbn [filter] in *. rewrite IH.
  unfold same_key.
  destruct (Qeq_bool (key x) p) eqn:Ex; destruct (Qeq_bool (key y) p) eqn:Ey;
    try reflexivity.
  apply Qeq_bool_iff in Ex, Ey. lra.
Qed.

(** Elements of equal key keep their order. *)
Lemma sort_desc_stable (p : Q) (l : list A) :
  filter (same_key key p) (sort_desc key l) = filter (same_key key p) l.
Proof.
  induction l as [|x l IH]; [reflexivity|].
  cbn [sort_desc fold_right]. fold (sort_desc key l).
  rewrite insert_desc_stable. cbn [filter]. rewrite IH. reflexivity.
Qed.

End SortFacts.

(** ** Sentence flagger *)

Lemma contribution_penalty (f : Features.t) (s : str) :
  match tokenize_words s with
  | [] => contribution f s = Ok (s, 0)
  | _ :: _ => exists p, contribution f s = Ok (s, p) /\ 0 <= p /\ p < 27 # 10
  end.
Proof.
  unfold contribution.
  destruct (tokenize_words s) as [|w ws]; [reflexivity|].
  rewrite (quotient_ok _ _ (len_cons_pos w ws)). cbn [bind].
  eexists. split; [reflexivity|].
  pose proof (inject_Z_pos _ (len_cons_pos w ws)) as Hn.
  pose proof (inject_Z_pos _ (len_distinct_pos w ws)) as Hd.
  pose proof (inject_Z_le _ _ (len_distinct_le (w :: ws))) as Hle.
  pose proof (quotient_pos _ _ Hd Hn) as H0.
  pose proof (quotient_le_1 _ _ Hle Hn) as H1.
  set (ttr := inject_Z (len (distinct (w :: ws))) / inject_Z (len (w :: ws))) in *.
  destruct (gtb _ _); destruct (has_causal s); lra.
Qed.

Lemma contributions_total (f : Features.t) (sentences : list str) :
  exists raw, for_each (contribution f) sentences = Ok raw
              /\ map fst raw = sentences
              /\ Forall penalty_in_range raw.
Proof.
  induction sentences as [|s r [raw [E [Hm Hp]]]].
  - exists []. repeat split. constructor.
  - pose proof (contribution_penalty f s) as Hc.
    assert (Hs : exists p, contribution f s = Ok (s, p) /\ penalty_in_range (s, p)).
    { unfold penalty_in_range. cbn [fst snd].
      destruct (tokenize_words s); [exists 0; auto|].
      destruct Hc as [p [E1 R]]. exists p. auto. }
    destruct Hs as [p [E1 R]].
    exists ((s, p) :: raw). cbn [for_each]. rewrite E1, E. cbn [bind].
    repeat split; [simpl; f_equal; exact Hm|]. constructor; assumption.
Qed.

Lemma sentence_contributions_total (f : Features.t) (sentences : list str) :
  exists raw,
    for_each (contribution f) sentences = Ok raw
    /\ map fst raw = sentences
    /\ Forall penalty_in_range raw
    /\ sentence_contributions sentences f = Ok (sort_desc snd raw).
Proof.
  destruct (contributions_total f sentences) as [raw [E [Hm Hp]]].
  exists raw. unfold sentence_contributions. rewrite E. auto.
Qed.

Lemma firstn_min {A : Type} (k : nat) (l : list A) :
  firstn (Nat.min k (length l)) l = firstn k l.
Proof.
  destruct (Nat.le_gt_cases k (length l)) as [H|H].
  - rewrite Nat.min_l by exact H. reflexivity.
  - rewrite Nat.min_r by lia. rewrite firstn_all, firstn_all2 by lia. reflexivity.
Qed.

Section AnalyzeFacts.

Variable World : Type.
Variable oracle : str -> World -> (string + Q * Q) * World.

(** What [analyze] can do: refuse a short text, let an exception of the
    oracle through, or answer with the scores and the ranking of the text. *)
Lemma analyze_cases (text : str) (w : World) :
  match analyze oracle text w with
  | (Ok resp, _) =>
      features_of text (Response.diagnostics resp)
      /\ (20 <= len (strip text))%Z
      /\ exists sc contribs,
          score_paper (Response.diagnostics resp) = Ok sc
          /\ sentence_contributions (sentence_split text) (Response.diagnostics resp)
             = Ok contribs
          /\ Response.composite resp = Scores.composite sc
          /\ Response.language resp = Scores.language sc
          /\ Response.coherence resp = Scores.coherence sc
          /\ Response.reasoning resp = Scores.reasoning sc
          /\ Response.top_flagged_sentences resp = map fst (firstn 5 contribs)
          /\ map Sentiment.text (Response.sentiment_analysis resp) = sentence_split text
  | (Raise e, _) => e = too_short \/ exists what, e = OracleRaised what
  end.
Proof.
  unfold analyze.
  destruct (len (strip text) <? 20)%Z eqn:Hlen; [left; reflexivity|].
  apply Z.ltb_ge in Hlen.
  unfold bindM.
  pose proof (compute_features_cases World oracle text w) as H.
  destruct (compute_features oracle text w) as [[[[[f sentences] words] ss]|e] w'];
    [|right; exact H].
  destruct H as [Hf [Hs [Hw Hss]]].
  pose proof (features_of_range text f Hf) as R.
  destruct (score_paper_range f) as [sc [Esc _]]; try tauto.
  destruct (sentence_contributions_total f sentences) as [raw [_ [_ [_ Ec]]]].
  unfold lift, ret. rewrite Esc, Ec. cbn.
  split; [exact Hf|]. split; [exact Hlen|].
  exists sc, (sort_desc snd raw). subst sentences. auto 12.
Qed.

End AnalyzeFacts.

(** C10: for every sentence sequence and feature vector
    [sentence_contributions] returns, one pair per sentence, and every
    penalty lies in [0, 2.7]: it is exactly 0 for a sentence without word
    tokens, and at least 0 and strictly below 2.7 for a sentence with one. *)
Theorem penalties_bounded (sentences : list str) (f : Features.t) :
  exists contribs,
    sentence_contributions sentences f = Ok contribs
    /\ Permutation sentences (map fst contribs)
    /\ Forall penalty_in_range contribs
    /\ Forall (fun sp => 0 <= snd sp <= 27 # 10) contribs.
Proof.
  destruct (sentence_contributions_total f sentences) as [raw [_ [Hm [Hp Ec]]]].
  exists (sort_desc snd raw).
  assert (HF : Forall penalty_in_range (sort_desc snd raw))
    by (apply (Permutation_Forall (sort_desc_perm snd raw)), Hp).
  repeat split; [exact Ec | | exact HF |].
  - rewrite <- Hm. apply Permutation_map, sort_desc_perm.
  - revert HF. apply Forall_impl. intros [s p]. unfold penalty_in_range.
    cbn [fst snd]. destruct (tokenize_words s); [intros ->|]; lra.
Qed.

(** ** Failure of the sentiment oracle *)

Section OracleFailure.

Variable World : Type.
Variable oracle : str -> World -> (string + Q * Q) * World.

Lemma sentence_sentiments_raise (pre post : list str) (s : str) (what : string)
    (vals : list (Q * Q)) (w w1 w2 : World) :
  answers oracle pre w = Some (vals, w1) ->
  oracle s w1 = (inl what, w2) ->
  for_eachM World (sentence_sentiment World oracle) (pre ++ s :: post) w
  = (Raise (OracleRaised what), w2).
Proof.
  revert vals w. induction pre as [|a pre IH]; intros vals w Ha Hs.
  - simpl in Ha. injection Ha as Hv Hw. subst vals w1.
    cbn [app for_eachM]. unfold bindM, sentence_sentiment, bindM, sentiment.
    rewrite Hs. reflexivity.
  - cbn [answers] in Ha.
    cbn [app for_eachM]. unfold bindM at 1. unfold sentence_sentiment at 1.
    unfold bindM at 1. unfold sentiment.
    destruct (oracle a w) as [[e|ps] w0]; [discriminate|].
    destruct (answers oracle pre w0) as [[l w'']|] eqn:Hr; [|discriminate].
    injection Ha as Hv Hw. subst vals w''.
    unfold ret at 1. unfold bindM.
    rewrite (IH _ _ Hr Hs). reflexivity.
Qed.

Lemma compute_features_raise (text : str) (pre post : list str) (s : str)
    (what : string) (vals : list (Q * Q)) (w w1 w2 : World) :
  text :: sentence_split text = pre ++ s :: post ->
  answers oracle pre w = Some (vals, w1) ->
  oracle s w1 = (inl what, w2) ->
  compute_features oracle text w = (Raise (OracleRaised what), w2).
Proof.
  intros Hspans Ha Hs.
  unfold compute_features.
  destruct (avg_sentence_length_nonneg (sentence_split text)) as [asl [E1 _]].
  destruct (avg_word_length_nonneg (tokenize_words text)) as [awl [E2 _]].
  destruct (type_token_ratio_range (tokenize_words text)) as [ttr [E3 _]].
  destruct (lexical_sophistication_range (tokenize_words text)) as [ls [E4 _]].
  destruct (coherence_score_range (sentence_split text)) as [coh [E5 _]].
  destruct (reasoning_proxy_range (sentence_split text) (tokenize_words text))
    as [rp [E6 _]].
  rewrite E1, E2, E3, E4, E5, E6.
  unfold bindM at 1 2 3 4 5 6. unfold lift. unfold bindM at 1. unfold sentiment.
  destruct pre as [|a pre].
  - simpl in Hspans, Ha. injection Hspans as Ht _. injection Ha as Hv Hw.
    subst s vals w1. rewrite Hs. reflexivity.
  - simpl in Hspans. injection Hspans as Ht Hsplit. subst a.
    cbn [answers] in Ha.
    destruct (oracle text w) as [[e|ps] w0]; [discriminate|].
    destruct (answers oracle pre w0) as [[l w'']|] eqn:Hr; [|discriminate].
    injection Ha as Hv Hw. subst vals w''.
    unfold bindM. rewrite Hsplit.
    rewrite (sentence_sentiments_raise pre post s what l w0 w1 w2 Hr Hs).
    reflexivity.
Qed.

End OracleFailure.

(** C9, as stated, fails: [analyze] has no condition of its own for a failure
    of the oracle. What the caller gets is whatever the oracle raised, so two
    failures of the oracle on the same text surface as two different
    exceptions and no single exception stands for all of them. *)
Lemma no_sentiment_unavailable_condition :
  ~ (exists unavailable : exn,
        forall what : string,
          fst (analyze (failing_oracle what) with_marker tt) = Raise unavailable).
Proof.
  intros [u H].
  pose proof (H "TimeoutError"%string) as H1.
  pose proof (H "MissingCorpusError"%string) as H2.
  vm_compute in H1, H2. rewrite <- H1 in H2. discriminate H2.
Qed.

(** C9, amended: on a text long enough to be analysed, when the oracle raises
    on the whole text or on a sentence (every span before it having been
    answered), [analyze] ends with the exception the oracle raised, passed
    on unchanged: no Response is built, so no zeroed polarity or
    subjectivity stands in for the failure, and the world is the one the
    failing call left, so the call is not made again and no later span is
    sent to the oracle. *)
Theorem oracle_failure_propagates (World : Type)
    (oracle : str -> World -> (string + Q * Q) * World)
    (text : str) (pre post : list str) (s : str) (what : string)
    (vals : list (Q * Q)) (w w1 w2 : World) :
  (20 <= len (strip text))%Z ->
  text :: sentence_split text = pre ++ s :: post ->
  answers oracle pre w = Some (vals, w1) ->
  oracle s w1 = (inl what, w2) ->
  analyze oracle text w = (Raise (OracleRaised what), w2).
Proof.
  intros Hlen Hspans Ha Hs.
  unfold analyze. apply Z.ltb_ge in Hlen. rewrite Hlen.
  unfold bindM.
  rewrite (compute_features_raise World oracle text pre post s what vals w w1 w2
             Hspans Ha Hs).
  reflexivity.
Qed.

Lemma oracle_failure_propagates_witness :
  analyze flaky_oracle with_marker 0%nat
  = (Raise (OracleRaised "TimeoutError"), 2%nat).
Proof.
  apply (oracle_failure_propagates nat flaky_oracle with_marker
           [with_marker] [lit "Therefore the hypothesis is rejected."]
           (lit "The result failed.") "TimeoutError" [(0, 0)] 0%nat 1%nat 2%nat).
  - vm_compute. discriminate.
  - vm_compute. reflexivity.
  - vm_compute. reflexivity.
  - vm_compute. reflexivity.
Defined.

(** ** Scenarios *)

(** C7: the [reasoning_proxy] of "The result failed. Therefore the
    hypothesis is rejected." (5/6) is strictly greater than the one of the
    same text with the word "Therefore" removed (1/2), whether or not a
    space goes with the word. *)
Theorem causal_marker_raises_reasoning_proxy :
  exists r r1 r2,
    reasoning_proxy (sentence_split with_marker) (tokenize_words with_marker) = Ok r
    /\ reasoning_proxy (sentence_split without_marker_gap)
                       (tokenize_words without_marker_gap) = Ok r1
    /\ reasoning_proxy (sentence_split without_marker)
                       (tokenize_words without_marker) = Ok r2
    /\ r1 < r /\ r2 < r
    /\ Features.reasoning_proxy (features_with without_marker_gap)
       < Features.reasoning_proxy (features_with with_marker)
    /\ Features.reasoning_proxy (features_with without_marker)
       < Features.reasoning_proxy (features_with with_marker).
Proof.
  do 3 eexists.
  split; [vm_compute; reflexivity|].
  split; [vm_compute; reflexivity|].
  split; [vm_compute; reflexivity|].
  repeat split; vm_compute; reflexivity.
Qed.

(** ** Longer words *)

Lemma no_shorter_len (a b : str) : no_shorter a b -> (len a <= len b)%Z.
Proof. unfold no_shorter, len. intros [->|H]; lia. Qed.

Lemma sum_lengths_le (l1 l2 : list str) :
  Forall2 no_shorter l1 l2 -> (sumZ (map len l1) <= sumZ (map len l2))%Z.
Proof.
  induction 1 as [|a b l1 l2 Hab _ IH]; simpl; [lia|].
  apply no_shorter_len in Hab. lia.
Qed.

Lemma sum_lengths_lt (l1 l2 : list str) :
  Forall2 no_shorter l1 l2 ->
  Exists strictly_longer (combine l1 l2) ->
  (sumZ (map len l1) < sumZ (map len l2))%Z.
Proof.
  induction 1 as [|a b l1 l2 Hab Hr IH]; simpl; intros HE.
  - inversion HE.
  - pose proof (sum_lengths_le l1 l2 Hr).
    inversion HE as [x l Hx|x l Hx]; subst.
    + unfold strictly_longer in Hx. cbn [fst snd] in Hx.
      assert (len a < len b)%Z by (unfold len; lia). lia.
    + specialize (IH Hx). apply no_shorter_len in Hab. lia.
Qed.

Lemma quotient_lt (a b n : Q) : a < b -> 0 < n -> a / n < b / n.
Proof.
  intros Hab Hn. unfold Qdiv. apply Qmult_lt_compat_r; [|exact Hab].
  apply Qinv_lt_0_compat, Hn.
Qed.

Lemma quotient_le (a b n : Q) : a <= b -> 0 < n -> a / n <= b / n.
Proof.
  intros Hab Hn. unfold Qdiv. apply Qmult_le_compat_r; [exact Hab|].
  apply Qlt_le_weak, Qinv_lt_0_compat, Hn.
Qed.

(** Words replaced by longer ones, the number of words kept: the mean word
    length goes up. *)
Lemma avg_word_length_increases (ws1 ws2 : list str) :
  Forall2 no_shorter ws1 ws2 ->
  Exists strictly_longer (combine ws1 ws2) ->
  exists a1 a2,
    avg_word_length ws1 = Ok a1 /\ avg_word_length ws2 = Ok a2 /\ a1 < a2.
Proof.
  intros HF HE.
  pose proof (sum_lengths_lt ws1 ws2 HF HE) as Hlt.
  pose proof (Forall2_length HF) as Hlen.
  destruct ws1 as [|a ws1]; [inversion HE|].
  destruct ws2 as [|b ws2]; [discriminate|].
  unfold avg_word_length.
  rewrite (quotient_ok _ _ (len_cons_pos a ws1)).
  rewrite (quotient_ok _ _ (len_cons_pos b ws2)).
  do 2 eexists. split; [reflexivity|]. split; [reflexivity|].
  unfold len at 2 4. rewrite Hlen.
  apply quotient_lt.
  - rewrite <- Zlt_Qlt. exact Hlt.
  - apply inject_Z_pos. simpl length. lia.
Qed.

(** [language] is monotone in [avg_word_len], [ttr] and [lex_soph] fixed. *)
Lemma language_monotone (f1 f2 : Features.t) :
  Features.ttr f1 == Features.ttr f2 ->
  Features.lex_soph f1 == Features.lex_soph f2 ->
  Features.avg_word_len f1 <= Features.avg_word_len f2 ->
  exists s1 s2,
    score_paper f1 = Ok s1 /\ score_paper f2 = Ok s2
    /\ Scores.language s1 <= Scores.language s2.
Proof.
  intros Ht Hl Ha. unfold score_paper.
  rewrite !truediv_ok by discriminate. cbn [bind].
  do 2 eexists. split; [reflexivity|]. split; [reflexivity|].
  cbn [Scores.language]. apply round2_mono.
  assert (Hw : Features.avg_word_len f1 / 5 <= Features.avg_word_len f2 / 5)
    by (apply quotient_le; [exact Ha | reflexivity]).
  set (w1 := Features.avg_word_len f1 / 5) in *.
  set (w2 := Features.avg_word_len f2 / 5) in *.
  rewrite Ht, Hl.
  assert (Hm : Qmin 1 w1 <= Qmin 1 w2) by (apply Q.min_le_compat_l; exact Hw).
  lra.
Qed.

(** C8: for two texts with the same number of word tokens, the second made
    from the first by replacing some words with strictly longer ones, and
    with [ttr] and [lex_soph] unchanged, [avg_word_len] strictly increases
    and the [language] sub-score does not decrease ([coherence] and
    [reasoning_proxy] play no part in [language]). *)
Theorem longer_words_raise_language (text1 text2 : str) (f1 f2 : Features.t) :
  Forall2 no_shorter (tokenize_words text1) (tokenize_words text2) ->
  Exists strictly_longer (combine (tokenize_words text1) (tokenize_words text2)) ->
  features_of text1 f1 ->
  features_of text2 f2 ->
  Features.ttr f1 == Features.ttr f2 ->
  Features.lex_soph f1 == Features.lex_soph f2 ->
  length (tokenize_words text1) = length (tokenize_words text2)
  /\ Features.avg_word_len f1 < Features.avg_word_len f2
  /\ exists s1 s2,
      score_paper f1 = Ok s1 /\ score_paper f2 = Ok s2
      /\ Scores.language s1 <= Scores.language s2.
Proof.
  intros HF HE H1 H2 Ht Hl.
  destruct (avg_word_length_increases _ _ HF HE) as [a1 [a2 [E1 [E2 Hlt]]]].
  destruct H1 as (_ & _ & _ & Hawl1 & _).
  destruct H2 as (_ & _ & _ & Hawl2 & _).
  rewrite Hawl1 in E1. rewrite Hawl2 in E2.
  apply Ok_inj in E1, E2. subst a1 a2.
  split; [apply (Forall2_length HF)|].
  split; [exact Hlt|].
  apply language_monotone; [exact Ht | exact Hl | apply Qlt_le_weak, Hlt].
Qed.

Lemma longer_words_raise_language_witness :
  length (tokenize_words short_words) = length (tokenize_words longer_words)
  /\ Features.avg_word_len (features_with short_words)
     < Features.avg_word_len (features_with longer_words)
  /\ exists s1 s2,
      score_paper (features_with short_words) = Ok s1
      /\ score_paper (features_with longer_words) = Ok s2
      /\ Scores.language s1 <= Scores.language s2.
Proof.
  apply (longer_words_raise_language short_words longer_words).
  - vm_compute.
    repeat (apply Forall2_cons; [first [left; reflexivity | right; cbv; lia]|]).
    apply Forall2_nil.
  - vm_compute. apply Exists_cons_tl, Exists_cons_hd. cbv. lia.
  - vm_compute. repeat split; reflexivity.
  - vm_compute. repeat split; reflexivity.
  - vm_compute. reflexivity.
  - vm_compute. reflexivity.
Defined.

(** * Further properties of the code *)

(** ** Scorer *)

Lemma round2_compat (x y : Q) : x == y -> round2 x == round2 y.
Proof.
  intros H. apply Qle_antisym; apply round2_mono; rewrite H; apply Qle_refl.
Qed.

(** X13: Raising any of the five features the Scorer reads lowers none of the four
    scores. *)
Theorem score_paper_monotone (f1 f2 : Features.t) :
  Features.ttr f1 <= Features.ttr f2 ->
  Features.lex_soph f1 <= Features.lex_soph f2 ->
  Features.avg_word_len f1 <= Features.avg_word_len f2 ->
  Features.coherence f1 <= Features.coherence f2 ->
  Features.reasoning_proxy f1 <= Features.reasoning_proxy f2 ->
  exists s1 s2,
    score_paper f1 = Ok s1 /\ score_paper f2 = Ok s2
    /\ Scores.language s1 <= Scores.language s2
    /\ Scores.coherence s1 <= Scores.coherence s2
    /\ Scores.reasoning s1 <= Scores.reasoning s2
    /\ Scores.composite s1 <= Scores.composite s2.
Proof.
  intros Ht Hl Ha Hc Hr. unfold score_paper.
  rewrite !truediv_ok by discriminate. cbn [bind].
  do 2 eexists. split; [reflexivity|]. split; [reflexivity|].
  cbn [Scores.language Scores.coherence Scores.reasoning Scores.composite].
  assert (Hw : Features.avg_word_len f1 / 5 <= Features.avg_word_len f2 / 5)
    by (apply quotient_le; [exact Ha | reflexivity]).
  set (w1 := Features.avg_word_len f1 / 5) in *.
  set (w2 := Features.avg_word_len f2 / 5) in *.
  assert (H1 : Qmin 1 (Features.ttr f1 * (15 # 10)) <= Qmin 1 (Features.ttr f2 * (15 # 10)))
    by (apply Q.min_le_compat_l; lra).
  assert (H2 : Qmin 1 (Features.lex_soph f1 * 3) <= Qmin 1 (Features.lex_soph f2 * 3))
    by (apply Q.min_le_compat_l; lra).
  assert (H3 : Qmin 1 w1 <= Qmin 1 w2) by (apply Q.min_le_compat_l; exact Hw).
  repeat split; apply round2_mono; lra.
Qed.

Lemma score_paper_monotone_witness :
  exists s1 s2,
    score_paper (features_with short_words) = Ok s1
    /\ score_paper (features_with longer_words) = Ok s2
    /\ Scores.language s1 <= Scores.language s2
    /\ Scores.coherence s1 <= Scores.coherence s2
    /\ Scores.reasoning s1 <= Scores.reasoning s2
    /\ Scores.composite s1 <= Scores.composite s2.
Proof.
  apply (score_paper_monotone (features_with short_words) (features_with longer_words));
    vm_compute; discriminate.
Defined.

(** X15: The three terms of [language] are capped: with [ttr] at least 2/3,
    [lex_soph] at least 1/3 and [avg_word_len] at least 5 the sub-score is
    100, and nothing raises it further. *)
Theorem language_saturates (f : Features.t) :
  2 # 3 <= Features.ttr f ->
  1 # 3 <= Features.lex_soph f ->
  5 <= Features.avg_word_len f ->
  exists sc, score_paper f = Ok sc /\ Scores.language sc == 100.
Proof.
  intros Ht Hl Ha. unfold score_paper.
  rewrite truediv_ok by discriminate. cbn [bind].
  eexists. split; [reflexivity|]. cbn [Scores.language].
  assert (Hw : 1 <= Features.avg_word_len f / 5)
    by (apply Qle_shift_div_l; [reflexivity | lra]).
  transitivity (round2 100); [apply round2_compat | apply round2_100].
  rewrite !Q.min_l by lra. reflexivity.
Qed.

Lemma language_saturates_witness :
  exists sc, score_paper (features_with with_marker) = Ok sc
             /\ Scores.language sc == 100.
Proof.
  apply (language_saturates (features_with with_marker)); vm_compute; discriminate.
Defined.

(** ** Feature extractor *)

Lemma quotient_zero (b : Q) : 0 / b == 0.
Proof. unfold Qdiv. apply Qmult_0_l. Qed.

Lemma quotient_back (a b : Q) : 0 < b -> b * (a / b) == a.
Proof. intros Hb. apply Qmult_div_r. lra. Qed.

Lemma quotient_eq_0 (a b : Q) : 0 < b -> (a / b == 0 <-> a == 0).
Proof.
  intros Hb. pose proof (quotient_back a b Hb) as E. split; intros H.
  - rewrite H in E. lra.
  - rewrite H. apply quotient_zero.
Qed.

Lemma quotient_eq_1 (a b : Q) : 0 < b -> (a / b == 1 <-> a == b).
Proof.
  intros Hb. pose proof (quotient_back a b Hb) as E. split; intros H.
  - rewrite H in E. lra.
  - rewrite H. unfold Qdiv. apply Qmult_inv_r. lra.
Qed.

Lemma quotient_nonpos (a b : Q) : 0 < b -> a / b <= 0 -> a <= 0.
Proof.
  intros Hb H. pose proof (quotient_back a b Hb) as E.
  set (q := a / b) in *. nra.
Qed.

(** X12: [reasoning_proxy] around its centre: 1/2 exactly for a text with no
    causal sentence and no modal word, below 1/2 with modal words only,
    above 1/2 with causal sentences only. *)
Theorem reasoning_proxy_centre (sentences words : list str) :
  exists r,
    reasoning_proxy sentences words = Ok r
    /\ match filter has_causal sentences, filter is_modal words with
       | [], [] => r == 1 # 2
       | [], _ :: _ => r < 1 # 2
       | _ :: _, [] => 1 # 2 < r
       | _ :: _, _ :: _ => True
       end.
Proof.
  unfold reasoning_proxy.
  assert (Hs : (0 < len sentences + 1)%Z) by (pose proof (len_nonneg sentences); lia).
  assert (Hw : (0 < len words + 1)%Z) by (pose proof (len_nonneg words); lia).
  rewrite (quotient_ok _ _ Hs). cbn [bind].
  rewrite (quotient_ok _ _ Hw). cbn [bind].
  eexists. split; [reflexivity|].
  pose proof (inject_Z_pos _ Hs) as Hn. pose proof (inject_Z_pos _ Hw) as Hm.
  set (a := inject_Z (len (filter has_causal sentences)) / inject_Z (len sentences + 1)).
  set (b := inject_Z (len (filter is_modal words)) / inject_Z (len words + 1)).
  assert (Ha : match filter has_causal sentences with [] => a == 0 | _ :: _ => 0 < a end).
  { subst a. destruct (filter has_causal sentences) as [|c cs].
    - apply quotient_zero.
    - apply quotient_pos; [apply inject_Z_pos, len_cons_pos | exact Hn]. }
  assert (Hb : match filter is_modal words with [] => b == 0 | _ :: _ => 0 < b end).
  { subst b. destruct (filter is_modal words) as [|m ms].
    - apply quotient_zero.
    - apply quotient_pos; [apply inject_Z_pos, len_cons_pos | exact Hm]. }
  clearbody a b.
  destruct (Q.min_spec 1 ((1 # 2) + (a - b))) as [[? ?]|[? ?]];
    destruct (Q.max_spec 0 (Qmin 1 ((1 # 2) + (a - b)))) as [[? ?]|[? ?]];
    destruct (filter has_causal sentences) as [|c cs];
    destruct (filter is_modal words) as [|m ms]; try exact I; lra.
Qed.

Lemma length_nodup_le (l : list str) :
  (length (nodup str_eq_dec l) <= length l)%nat.
Proof.
  induction l as [|a l IH]; simpl; [lia|].
  destruct (in_dec str_eq_dec a l); simpl; lia.
Qed.

Lemma length_nodup_eq (l : list str) :
  length (nodup str_eq_dec l) = length l <-> NoDup l.
Proof.
  split.
  - induction l as [|a l IH]; simpl; [constructor|].
    pose proof (length_nodup_le l) as Hle.
    destruct (in_dec str_eq_dec a l) as [Hin|Hn]; simpl; intros H; [lia|].
    constructor; [exact Hn | apply IH; lia].
  - intros H. rewrite (nodup_fixed_point str_eq_dec H). reflexivity.
Qed.

(** X8: [type_token_ratio] is 1 exactly when no word occurs twice. *)
Theorem type_token_ratio_one (words : list str) :
  exists r,
    type_token_ratio words = Ok r
    /\ match words with
       | [] => r = 0
       | _ :: _ => r == 1 <-> NoDup words
       end.
Proof.
  destruct words as [|w ws]; [exists 0; auto|].
  unfold type_token_ratio.
  rewrite (quotient_ok _ _ (len_cons_pos w ws)).
  eexists. split; [reflexivity|].
  rewrite (quotient_eq_1 _ _ (inject_Z_pos _ (len_cons_pos w ws))).
  rewrite inject_Z_injective, <- length_nodup_eq.
  unfold len, distinct. split; [apply Nat2Z.inj | intros ->; reflexivity].
Qed.

Lemma nodup_repeat (w : str) (n : nat) :
  nodup str_eq_dec (repeat w (S n)) = [w].
Proof.
  induction n as [|n IH]; [reflexivity|].
  change (repeat w (S (S n))) with (w :: repeat w (S n)).
  cbn [nodup]. destruct (in_dec str_eq_dec w (repeat w (S n))) as [_|Hn].
  - exact IH.
  - exfalso. apply Hn. left. reflexivity.
Qed.

(** X9: One word repeated [n] times, [n] at least 1, has a type-token ratio of
    1/n. *)
Theorem type_token_ratio_repeated (w : str) (n : nat) :
  exists r,
    type_token_ratio (repeat w (S n)) = Ok r
    /\ r == 1 / inject_Z (Z.of_nat (S n)).
Proof.
  unfold type_token_ratio. change (repeat w (S n)) with (w :: repeat w n) at 1.
  cbv iota.
  assert (Hlen : len (repeat w (S n)) = Z.of_nat (S n))
    by (unfold len; rewrite repeat_length; reflexivity).
  rewrite quotient_ok by (rewrite Hlen; lia).
  eexists. split; [reflexivity|].
  unfold distinct. rewrite nodup_repeat, Hlen. reflexivity.
Qed.

Lemma length_filter_le {A : Type} (f : A -> bool) (l : list A) :
  (length (filter f l) <= length l)%nat.
Proof.
  induction l as [|a l IH]; simpl; [lia|]. destruct (f a); simpl; lia.
Qed.

Lemma length_filter_zero {A : Type} (f : A -> bool) (l : list A) :
  length (filter f l) = 0%nat <-> existsb f l = false.
Proof.
  induction l as [|a l IH]; simpl; [tauto|].
  destruct (f a); simpl; [split; [lia | discriminate] | exact IH].
Qed.

Lemma length_filter_full {A : Type} (f : A -> bool) (l : list A) :
  length (filter f l) = length l <-> forallb f l = true.
Proof.
  induction l as [|a l IH]; simpl; [tauto|].
  pose proof (length_filter_le f l).
  destruct (f a); simpl.
  - rewrite <- IH. lia.
  - split; [lia | discriminate].
Qed.

(** X10: [lexical_sophistication] is 0 exactly when no word has more than six
    characters, and 1 exactly when there is a word and every word has. *)
Theorem lexical_sophistication_extremes (words : list str) :
  exists r,
    lexical_sophistication words = Ok r
    /\ (r == 0 <-> existsb (fun w => (6 <? len w)%Z) words = false)
    /\ (r == 1 <-> words <> [] /\ forallb (fun w => (6 <? len w)%Z) words = true).
Proof.
  destruct words as [|w ws].
  - exists 0. split; [reflexivity|]. split.
    + split; reflexivity.
    + split; [discriminate | intros [H _]; contradiction].
  - unfold lexical_sophistication.
    rewrite (quotient_ok _ _ (len_cons_pos w ws)).
    eexists. split; [reflexivity|].
    set (f := fun w0 : str => (6 <? len w0)%Z).
    pose proof (inject_Z_pos _ (len_cons_pos w ws)) as Hn.
    split.
    + rewrite (quotient_eq_0 _ _ Hn). change 0 with (inject_Z 0).
      rewrite inject_Z_injective, <- length_filter_zero. unfold len.
      split; [intros H; apply Nat2Z.inj, H | intros H; rewrite H; reflexivity].
    + rewrite (quotient_eq_1 _ _ Hn).
      rewrite inject_Z_injective, <- length_filter_full. unfold len.
      split.
      * intros H. split; [discriminate | apply Nat2Z.inj, H].
      * intros [_ H]. rewrite H. reflexivity.
Qed.

Lemma sumZ_between (l : list Z) (lo hi : Z) :
  Forall (fun z => lo <= z <= hi)%Z l ->
  (lo * len l <= sumZ l <= hi * len l)%Z.
Proof.
  induction 1 as [|z l Hz _ IH]; [unfold len; simpl; lia|].
  assert (E : len (z :: l) = (len l + 1)%Z) by (unfold len; simpl length; lia).
  rewrite E. simpl sumZ. nia.
Qed.

(** A mean of integers lies between any two bounds of the integers. *)
Lemma mean_between (l : list Z) (lo hi : Z) :
  (0 < len l)%Z ->
  Forall (fun z => lo <= z <= hi)%Z l ->
  inject_Z lo <= inject_Z (sumZ l) / inject_Z (len l) <= inject_Z hi.
Proof.
  intros Hpos HF. destruct (sumZ_between l lo hi HF) as [H1 H2].
  pose proof (inject_Z_pos _ Hpos) as Hn.
  split.
  - apply Qle_shift_div_l; [exact Hn|].
    rewrite <- inject_Z_mult, <- Zle_Qle. exact H1.
  - apply Qle_shift_div_r; [exact Hn|].
    rewrite <- inject_Z_mult, <- Zle_Qle. exact H2.
Qed.

(** X7: The mean word length lies between the lengths of the shortest and the
    longest word. *)
Theorem avg_word_length_between (words : list str) (lo hi : Z) :
  words <> [] ->
  Forall (fun w => lo <= len w <= hi)%Z words ->
  exists r, avg_word_length words = Ok r /\ inject_Z lo <= r <= inject_Z hi.
Proof.
  intros Hne HF. destruct words as [|w ws]; [contradiction|].
  unfold avg_word_length.
  rewrite (quotient_ok _ _ (len_cons_pos w ws)).
  eexists. split; [reflexivity|].
  assert (E : len (w :: ws) = len (map len (w :: ws)))
    by (unfold len; rewrite length_map; reflexivity).
  rewrite E. apply mean_between.
  - rewrite <- E. apply len_cons_pos.
  - apply Forall_map. exact HF.
Qed.

Lemma avg_word_length_between_witness :
  exists r, avg_word_length (tokenize_words short_words) = Ok r
            /\ inject_Z 1 <= r <= inject_Z 4.
Proof.
  apply (avg_word_length_between (tokenize_words short_words) 1 4).
  - vm_compute. discriminate.
  - vm_compute. repeat constructor; discriminate.
Defined.

Lemma sq_zero (x : Q) : sq x <= 0 <-> x == 0.
Proof.
  unfold sq. split; intros H.
  - destruct (Q_dec x 0) as [[Hlt|Hgt]|E]; [nra | nra | exact E].
  - rewrite H. lra.
Qed.

Lemma sumQ_sq_zero (m : Q) (l : list Z) :
  sumQ (map (fun z => sq (inject_Z z - m)) l) <= 0
  <-> Forall (fun z => inject_Z z == m) l.
Proof.
  induction l as [|z l IH]; simpl.
  - split; [constructor | intros _; lra].
  - pose proof (sq_nonneg (inject_Z z - m)) as H0.
    pose proof (sumQ_sq_nonneg m l) as H1.
    split.
    + intros H. constructor.
      * assert (Hz : inject_Z z - m == 0) by (apply sq_zero; lra). lra.
      * apply IH. lra.
    + intros H. inversion H as [|? ? Hz Hl]; subst.
      apply IH in Hl.
      assert (Hs : sq (inject_Z z - m) <= 0) by (apply sq_zero; lra).
      lra.
Qed.

(** X11: [coherence_score] is 1 exactly when there is a sentence and all
    sentences have the same number of word tokens. *)
Theorem coherence_score_one (sentences : list str) :
  exists r,
    coherence_score sentences = Ok r
    /\ (r == 1 <->
        sentences <> []
        /\ exists n, Forall (fun s => len (tokenize_words s) = n) sentences).
Proof.
  destruct sentences as [|s ss].
  - exists 0. split; [reflexivity|].
    split; [intros H; lra | intros [H _]; contradiction].
  - unfold coherence_score.
    remember (s :: ss) as l eqn:El.
    set (lens := map (fun s0 => len (tokenize_words s0)) l).
    assert (Hpos : (0 < len lens)%Z) by (subst lens l; apply len_cons_pos).
    destruct l as [|x l']; [discriminate|]. fold lens.
    pose proof (inject_Z_pos _ Hpos) as Hn.
    rewrite (quotient_ok _ _ Hpos). cbn [bind].
    set (mean := inject_Z (sumZ lens) / inject_Z (len lens)).
    assert (Hmean : 0 <= mean).
    { apply quotient_nonneg; [|exact Hn].
      apply inject_Z_nonneg. subst lens. apply sumZ_lens_nonneg. }
    rewrite (truediv_ok _ (inject_Z (len lens))) by lra. cbn [bind].
    set (total := sumQ (map (fun z => sq (inject_Z z - mean)) lens)).
    set (var := total / inject_Z (len lens)).
    assert (Htotal : 0 <= total) by apply sumQ_sq_nonneg.
    assert (Hvar : 0 <= var) by (apply quotient_nonneg; assumption).
    assert (Hden : 0 < sq (mean + 1)) by (unfold sq; nra).
    rewrite (truediv_ok var (sq (mean + 1))) by lra. cbn [bind].
    eexists. split; [reflexivity|].
    pose proof (quotient_nonneg _ _ Hvar Hden) as Hratio.
    set (ratio := var / sq (mean + 1)) in *.
    split.
    + intros H. split; [discriminate|].
      assert (Hr : ratio <= 0)
        by (destruct (Q.max_spec 0 (1 - ratio)) as [[? ?]|[? ?]]; lra).
      apply quotient_nonpos in Hr; [|exact Hden].
      apply quotient_nonpos in Hr; [|exact Hn].
      apply sumQ_sq_zero in Hr.
      exists (len (tokenize_words x)).
      subst lens. rewrite Forall_map in Hr.
      inversion Hr as [|? ? Hx _]; subst.
      revert Hr. apply Forall_impl. intros a Ha.
      apply inject_Z_injective. rewrite Ha, Hx. reflexivity.
    + intros [_ [n Hall]].
      assert (Hb : Forall (fun z => n <= z <= n)%Z lens).
      { subst lens. apply Forall_map. revert Hall. apply Forall_impl.
        intros a ->. lia. }
      pose proof (mean_between lens n n Hpos Hb) as Hm. fold mean in Hm.
      assert (Ht : total <= 0).
      { apply sumQ_sq_zero. subst lens. apply Forall_map.
        revert Hall. apply Forall_impl. intros a ->. lra. }
      assert (Hv : var <= 0) by (apply Qle_shift_div_r; [exact Hn | lra]).
      assert (Hr : ratio <= 0) by (apply Qle_shift_div_r; [exact Hden | lra]).
      destruct (Q.max_spec 0 (1 - ratio)) as [[? ?]|[? ?]]; lra.
Qed.

(** ** Sentence flagger *)

Lemma gtb_le (a b : Q) : a <= b -> gtb a b = false.
Proof.
  intros H. unfold gtb. apply negb_false_iff, Qle_bool_iff, H.
Qed.

(** X16: A sentence of at most 40 word tokens never gets the length term: its
    penalty does not depend on the document features, and is below 1 with a
    causal marker and below 1.5 without. *)
Theorem short_sentence_penalty (f : Features.t) (s : str) :
  (len (tokenize_words s) <= 40)%Z ->
  exists p,
    contribution f s = Ok (s, p)
    /\ (if has_causal s then p < 1 else p < 3 # 2)
    /\ forall f' : Features.t, contribution f' s = Ok (s, p).
Proof.
  intros Hlen. unfold contribution.
  destruct (tokenize_words s) as [|w ws].
  - exists 0. split; [reflexivity|]. split; [|reflexivity].
    destruct (has_causal s); reflexivity.
  - rewrite (quotient_ok _ _ (len_cons_pos w ws)). cbn [bind].
    assert (Hshort : forall g : Features.t,
               gtb (inject_Z (len (w :: ws)))
                   (Qmax 40 (Features.avg_sentence_len g * 2)) = false).
    { intros g. apply gtb_le.
      apply Qle_trans with 40; [|apply Q.le_max_l].
      change 40 with (inject_Z 40). rewrite <- Zle_Qle. exact Hlen. }
    rewrite Hshort.
    eexists. split; [reflexivity|]. split.
    + pose proof (inject_Z_pos _ (len_cons_pos w ws)) as Hn.
      pose proof (inject_Z_pos _ (len_distinct_pos w ws)) as Hd.
      pose proof (quotient_pos _ _ Hd Hn) as H0.
      set (ttr := inject_Z (len (distinct (w :: ws))) / inject_Z (len (w :: ws))) in *.
      destruct (has_causal s); lra.
    + intros f'. rewrite Hshort. reflexivity.
Qed.

Lemma short_sentence_penalty_witness :
  exists p,
    contribution (features_with with_marker) (lit "The result failed.")
    = Ok (lit "The result failed.", p)
    /\ (if has_causal (lit "The result failed.") then p < 1 else p < 3 # 2)
    /\ forall f' : Features.t,
        contribution f' (lit "The result failed.") = Ok (lit "The result failed.", p).
Proof.
  apply (short_sentence_penalty (features_with with_marker) (lit "The result failed.")).
  vm_compute. discriminate.
Defined.

(** ** Segmenter *)

Lemma sentence_split_nil_blank (text : str) :
  sentence_split text = [] -> strip text = [].
Proof.
  unfold sentence_split. destruct (strip text) as [|c r] eqn:E; [reflexivity|].
  pose proof (strip_head text c) as Hc. rewrite E in Hc.
  specialize (Hc eq_refl).
  assert (Hkeep : forall p, (0 <? length (strip (c :: p)))%nat = true).
  { intros p. destruct (strip (c :: p)) eqn:Es; [|reflexivity].
    apply strip_nil_all_space in Es. simpl in Es. rewrite Hc in Es. discriminate. }
  unfold Re.split_sentences. simpl length. cbn [Re.split_from Re.find_separator].
  cbn [Re.after_terminator andb].
  destruct (Re.find_separator (Some c) r) as [[[piece last] rest]|];
    cbn [filter]; rewrite Hkeep; discriminate.
Qed.

(** X2: A text has no sentence exactly when it is empty or whitespace only; a
    text without a sentence has no word token either. *)
Theorem sentence_split_nil_iff (text : str) :
  (sentence_split text = [] <-> strip text = [])
  /\ (sentence_split text = [] -> tokenize_words text = []).
Proof.
  split; [split; [apply sentence_split_nil_blank | apply sentence_split_blank]|].
  intros E.
  apply tokenize_words_blank, strip_nil_all_space, sentence_split_nil_blank, E.
Qed.

Lemma replace2_backslash_n (n : nat) (s : str) :
  (length s <= n)%nat ->
  adjacent backslash_n (replace2 "\" "n" [" "] s) = false
  /\ (starts_with (Ascii.eqb "n") (replace2 "\" "n" [" "] s) = true ->
      starts_with (Ascii.eqb "n") s = true).
Proof.
  revert s. induction n as [|n IH]; intros s Hlen.
  - destruct s; [|simpl in Hlen; lia]. auto.
  - destruct s as [|c [|d r]]; [auto | auto |].
    rewrite replace2_step.
    destruct (Ascii.eqb c "\" && Ascii.eqb d "n") eqn:Hm.
    + destruct (IH r) as [Ha _]; [simpl in Hlen; lia|].
      change ([" "] ++ replace2 "\" "n" [" "] r)
        with (" " :: replace2 "\" "n" [" "] r).
      split; [|discriminate].
      rewrite adjacent_cons, Ha, orb_false_r.
      destruct (replace2 "\" "n" [" "] r); reflexivity.
    + destruct (IH (d :: r)) as [Ha Hh]; [simpl in *; lia|].
      split; [|intros H; exact H].
      rewrite adjacent_cons, Ha, orb_false_r.
      destruct (replace2 "\" "n" [" "] (d :: r)) as [|e t] eqn:Er; [reflexivity|].
      cbn [starts_with]. unfold backslash_n.
      destruct (Ascii.eqb c "\") eqn:Ec; [|reflexivity].
      destruct (Ascii.eqb_spec e "n") as [->|]; [|reflexivity].
      specialize (Hh eq_refl). cbn [starts_with] in Hh.
      apply Ascii.eqb_eq in Hh. subst d. simpl in Hm. discriminate.
Qed.

(** X3: No sentence holds a backslash followed by the letter n: every such pair
    of the text has become a space. *)
Theorem sentence_split_no_backslash_n (text : str) :
  Forall (fun s => adjacent backslash_n s = false) (sentence_split text).
Proof.
  unfold sentence_split. apply Forall_map, Forall_forall.
  intros s _. apply strip_adjacent.
  apply (replace2_backslash_n (length s) s (le_n _)).
Qed.

(** *** Word tokens *)

Lemma in_token_word (c : ascii) : isword c = true -> Re.in_token c = true.
Proof. intros H. unfold Re.in_token. rewrite H. reflexivity. Qed.

Lemma quiet_outside (c : ascii) (r : str) :
  Re.in_token c = false -> quiet (c :: r) = true.
Proof.
  intros H. simpl. rewrite H.
  destruct (isword c) eqn:Hw; [|reflexivity].
  apply in_token_word in Hw. congruence.
Qed.

Lemma quiet_head (s : str) : quiet s = true -> Re.isword_opt (hd_error s) = false.
Proof.
  destruct s as [|c r]; [reflexivity|]. simpl.
  destruct (isword c); [discriminate | reflexivity].
Qed.

(** The run keeps token characters only and stops in front of a character
    that is not one. *)
Lemma take_run_run (acc s taken rest : str) :
  Re.take_run acc s = (taken, rest) ->
  forallb Re.in_token acc = true ->
  forallb Re.in_token taken = true /\ quiet rest = true.
Proof.
  revert acc. induction s as [|c r IH]; intros acc; simpl.
  - intros [= <- <-] H. auto.
  - destruct (Re.in_token c) eqn:Hc.
    + intros H Ha. apply (IH _ H). simpl. rewrite Hc, Ha. reflexivity.
    + intros [= <- <-] H. split; [exact H | apply quiet_outside, Hc].
Qed.

Lemma take_run_quiet (acc s taken rest : str) :
  Re.take_run acc s = (taken, rest) ->
  quiet s = true ->
  existsb isword acc = false ->
  existsb isword taken = false.
Proof.
  revert acc. induction s as [|c r IH]; intros acc; simpl.
  - intros [= <- <-] _ H. exact H.
  - destruct (isword c) eqn:Hw; [discriminate|].
    destruct (Re.in_token c) eqn:Hc.
    + intros H Hq Ha. apply (IH _ H Hq). simpl. rewrite Hw, Ha. reflexivity.
    + intros [= <- <-] _ H. exact H.
Qed.

Lemma take_run_keeps (acc s taken rest : str) :
  Re.take_run acc s = (taken, rest) ->
  existsb isword acc = true ->
  existsb isword taken = true.
Proof.
  revert acc. induction s as [|c r IH]; intros acc; simpl.
  - intros [= <- <-] H. exact H.
  - destruct (Re.in_token c).
    + intros H Ha. apply (IH _ H). simpl. rewrite Ha. apply orb_true_r.
    + intros [= <- <-] H. exact H.
Qed.

Lemma forallb_reversed {A : Type} (f : A -> bool) (l : list A) :
  forallb f (rev l) = forallb f l.
Proof.
  induction l as [|a l IH]; [reflexivity|].
  simpl. rewrite forallb_app, IH. simpl. rewrite andb_true_r. apply andb_comm.
Qed.

Lemma word_boundary_head (c : ascii) (rest : str) :
  Re.isword_opt (hd_error rest) = false ->
  Re.word_boundary (Some c) (hd_error rest) = isword c.
Proof.
  intros H. unfold Re.word_boundary. rewrite H. apply xorb_false_r.
Qed.

(** What is given back is made of apostrophes, and the match ends on a word
    character. *)
Lemma give_back_word (taken rest tok rest' : str) (last : ascii) :
  Re.give_back taken rest = Some (tok, last, rest') ->
  quiet rest = true ->
  forallb Re.in_token taken = true ->
  isword last = true
  /\ quiet rest' = true
  /\ ends_with isword tok = true
  /\ forallb Re.in_token tok = true.
Proof.
  revert rest. induction taken as [|c t IH]; intros rest; [discriminate|].
  cbn [Re.give_back]. intros H Hq Ht.
  cbn [forallb] in Ht. apply andb_prop in Ht. destruct Ht as [Hc Ht].
  rewrite (word_boundary_head c rest (quiet_head rest Hq)) in H.
  destruct (isword c) eqn:Hw.
  - injection H as <- <- <-.
    repeat split; try assumption.
    + change (starts_with isword (rev (rev (c :: t))) = true).
      rewrite rev_involutive. exact Hw.
    + change (forallb Re.in_token (rev (c :: t)) = true).
      rewrite forallb_reversed. simpl. rewrite Hc, Ht. reflexivity.
  - apply (IH _ H); [|exact Ht]. simpl. rewrite Hw, Hc. exact Hq.
Qed.

Lemma give_back_none (taken rest : str) :
  existsb isword taken = false ->
  Re.isword_opt (hd_error rest) = false ->
  Re.give_back taken rest = None.
Proof.
  revert rest. induction taken as [|c t IH]; intros rest; [reflexivity|].
  cbn [Re.give_back existsb]. intros H Hh.
  apply orb_false_elim in H. destruct H as [Hc Ht].
  rewrite (word_boundary_head c rest Hh), Hc. apply IH; [exact Ht | exact Hc].
Qed.

Lemma give_back_some (taken rest : str) :
  existsb isword taken = true ->
  quiet rest = true ->
  Re.give_back taken rest <> None.
Proof.
  revert rest. induction taken as [|c t IH]; intros rest; [discriminate|].
  cbn [Re.give_back existsb]. intros H Hq.
  rewrite (word_boundary_head c rest (quiet_head rest Hq)).
  destruct (isword c) eqn:Hw; [discriminate|].
  simpl in H. apply IH; [exact H|].
  simpl. rewrite Hw. destruct (Re.in_token c); [exact Hq | reflexivity].
Qed.

Lemma match_token_word (before : option ascii) (s tok rest : str) (last : ascii) :
  at_rest before s ->
  Re.match_token before s = Some (tok, last, rest) ->
  well_formed_token tok = true /\ at_rest (Some last) rest.
Proof.
  intros Hk Hm.
  destruct (match_token_shorter _ _ _ _ _ Hm) as [Hlen Es].
  unfold Re.match_token in Hm.
  destruct (Re.word_boundary before (hd_error s)) eqn:Hb; [|discriminate].
  destruct (Re.take_run [] s) as [taken rest0] eqn:Ht.
  destruct (take_run_run _ _ _ _ Ht eq_refl) as [Hall Hq].
  destruct (give_back_word _ _ _ _ _ Hm Hq Hall) as [Hl [Hq' [He Hf]]].
  split; [|intros _; exact Hq'].
  unfold well_formed_token. rewrite Hf, He, andb_true_r. simpl.
  destruct tok as [|c t]; [simpl in Hlen; lia|].
  subst s. cbn [starts_with].
  destruct (isword c) eqn:Hw; [reflexivity|].
  unfold Re.word_boundary in Hb. cbn [app hd_error Re.isword_opt] in Hb.
  rewrite Hw, xorb_false_r in Hb.
  specialize (Hk Hb).
  pose proof (take_run_quiet _ _ _ _ Ht Hk eq_refl) as Hnone.
  rewrite (give_back_none taken rest0 Hnone (quiet_head _ Hq)) in Hm.
  discriminate.
Qed.

Lemma match_token_none_head (before : option ascii) (c : ascii) (r : str) :
  at_rest before (c :: r) ->
  Re.match_token before (c :: r) = None ->
  isword c = false.
Proof.
  intros Hk Hm. destruct (isword c) eqn:Hw; [|reflexivity].
  exfalso. unfold Re.match_token in Hm.
  assert (Hb : Re.isword_opt before = false).
  { destruct (Re.isword_opt before) eqn:E; [|reflexivity].
    specialize (Hk E). simpl in Hk. rewrite Hw in Hk. discriminate. }
  unfold Re.word_boundary in Hm. rewrite Hb in Hm. simpl in Hm. rewrite Hw in Hm.
  simpl in Hm. rewrite (in_token_word c Hw) in Hm.
  destruct (Re.take_run [c] r) as [taken rest0] eqn:Ht.
  assert (Hacc : forallb Re.in_token [c] = true)
    by (simpl; rewrite (in_token_word c Hw); reflexivity).
  destruct (take_run_run _ _ _ _ Ht Hacc) as [_ Hq].
  assert (Hex : existsb isword taken = true)
    by (apply (take_run_keeps _ _ _ _ Ht); simpl; rewrite Hw; reflexivity).
  exact (give_back_some taken rest0 Hex Hq Hm).
Qed.

Lemma findall_from_well_formed (fuel : nat) (before : option ascii) (s : str) :
  at_rest before s ->
  Forall (fun w => well_formed_token w = true) (Re.findall_from fuel before s).
Proof.
  revert before s. induction fuel as [|f IH]; intros before s Hk; [constructor|].
  destruct s as [|c r]; [constructor|].
  cbn [Re.findall_from].
  destruct (Re.match_token before (c :: r)) as [[[tok last] rest]|] eqn:Hm.
  - destruct (match_token_word _ _ _ _ _ Hk Hm) as [Hw Hk'].
    constructor; [exact Hw | apply IH, Hk'].
  - apply IH. intros Hc. simpl in Hc.
    rewrite (match_token_none_head _ _ _ Hk Hm) in Hc. discriminate.
Qed.

Lemma findall_from_chars (fuel : nat) (before : option ascii) (s : str) :
  Forall (fun w => incl w s) (Re.findall_from fuel before s).
Proof.
  revert before s. induction fuel as [|f IH]; intros before s; [constructor|].
  destruct s as [|c r]; [constructor|].
  cbn [Re.findall_from].
  destruct (Re.match_token before (c :: r)) as [[[tok last] rest]|] eqn:Hm.
  - destruct (match_token_shorter _ _ _ _ _ Hm) as [_ Es]. rewrite Es.
    constructor; [apply incl_appl, incl_refl|].
    generalize (IH (Some last) rest). apply Forall_impl.
    intros w Hw. apply incl_appr, Hw.
  - generalize (IH (Some c) r). apply Forall_impl.
    intros w Hw. apply incl_tl, Hw.
Qed.

Lemma lower_char_twice (c : ascii) : lower_char (lower_char c) = lower_char c.
Proof. destruct c as [[] [] [] [] [] [] [] []]; reflexivity. Qed.

(** X5: Every word token consists of word characters and apostrophes, begins and
    ends with a word character (so is not empty), and is in lower case. *)
Theorem tokenize_words_well_formed (text : str) :
  Forall (fun w => well_formed_token w = true /\ lower w = w) (tokenize_words text).
Proof.
  unfold tokenize_words, Re.findall_tokens.
  pose proof (findall_from_well_formed (length (lower text)) None (lower text)) as H1.
  pose proof (findall_from_chars (length (lower text)) None (lower text)) as H2.
  specialize (H1 (fun H => False_ind _ (Bool.diff_false_true H))).
  rewrite Forall_forall in *. intros w Hw. split; [apply H1, Hw|].
  specialize (H2 w Hw). unfold lower.
  rewrite <- (map_id w) at 2. apply map_ext_in. intros c Hc.
  apply H2 in Hc. unfold lower in Hc. apply in_map_iff in Hc.
  destruct Hc as [c0 [<- _]]. apply lower_char_twice.
Qed.

Lemma well_formed_token_len (w : str) : well_formed_token w = true -> (1 <= len w)%Z.
Proof.
  unfold well_formed_token, len. destruct w as [|c r].
  - simpl. discriminate.
  - intros _. simpl length. lia.
Qed.

Lemma tokens_not_empty (text : str) :
  Forall (fun w => 1 <= len w)%Z (tokenize_words text).
Proof.
  unfold tokenize_words, Re.findall_tokens.
  generalize (findall_from_well_formed (length (lower text)) None (lower text)
                (fun H => False_ind _ (Bool.diff_false_true H))).
  apply Forall_impl. exact well_formed_token_len.
Qed.

Lemma sumZ_at_least (l : list Z) (lo : Z) :
  Forall (fun z => lo <= z)%Z l -> (lo * len l <= sumZ l)%Z.
Proof.
  induction 1 as [|z l Hz _ IH]; [unfold len; simpl; lia|].
  assert (E : len (z :: l) = (len l + 1)%Z) by (unfold len; simpl length; lia).
  rewrite E. simpl sumZ. nia.
Qed.

(** X6: The mean word length of a text is 0 when the text has no word token and
    at least 1 when it has one. *)
Theorem avg_word_length_of_text (text : str) :
  exists r,
    avg_word_length (tokenize_words text) = Ok r
    /\ match tokenize_words text with
       | [] => r = 0
       | _ :: _ => 1 <= r
       end.
Proof.
  pose proof (tokens_not_empty text) as Hwf.
  destruct (tokenize_words text) as [|w ws]; [exists 0; auto|].
  unfold avg_word_length.
  rewrite (quotient_ok _ _ (len_cons_pos w ws)).
  eexists. split; [reflexivity|].
  apply Qle_shift_div_l; [apply inject_Z_pos, len_cons_pos|].
  change 1 with (inject_Z 1). rewrite <- inject_Z_mult, <- Zle_Qle.
  assert (E : len (w :: ws) = len (map len (w :: ws)))
    by (unfold len; rewrite length_map; reflexivity).
  rewrite E. apply sumZ_at_least, Forall_map. exact Hwf.
Qed.

(** *** What splitting keeps *)

Lemma visible_app (a b : str) : visible (a ++ b) = visible a ++ visible b.
Proof. apply filter_app. Qed.

Lemma visible_spaces (s : str) : forallb isspace s = true -> visible s = [].
Proof.
  induction s as [|c r IH]; simpl; [reflexivity|].
  intros H. apply andb_prop in H. destruct H as [Hc Hr].
  rewrite Hc. simpl. apply IH, Hr.
Qed.

Lemma visible_rev (s : str) : visible (rev s) = rev (visible s).
Proof.
  induction s as [|c r IH]; [reflexivity|].
  simpl rev. rewrite visible_app, IH. simpl.
  destruct (isspace c); simpl; [apply app_nil_r | reflexivity].
Qed.

Lemma lstrip_visible (s : str) : visible (lstrip s) = visible s.
Proof.
  induction s as [|c r IH]; [reflexivity|]. simpl.
  destruct (isspace c) eqn:Hc; simpl; [exact IH | rewrite Hc; reflexivity].
Qed.

(** Stripping removes whitespace only. *)
Lemma strip_visible (s : str) : visible (strip s) = visible s.
Proof.
  unfold strip, rstrip.
  rewrite visible_rev, lstrip_visible, visible_rev, rev_involutive.
  apply lstrip_visible.
Qed.

Lemma skip_spaces_visible (last : ascii) (s : str) :
  visible (snd (Re.skip_spaces last s)) = visible s
  /\ incl (snd (Re.skip_spaces last s)) s.
Proof.
  revert last. induction s as [|c r IH]; intros last; simpl.
  - split; [reflexivity | apply incl_refl].
  - destruct (isspace c) eqn:Hc; simpl.
    + destruct (IH c) as [E I]. split; [exact E | apply incl_tl, I].
    + rewrite Hc. split; [reflexivity | apply incl_refl].
Qed.

Lemma find_separator_visible (before : option ascii) (s piece rest : str)
    (last : ascii) :
  Re.find_separator before s = Some (piece, last, rest) ->
  visible s = visible piece ++ visible rest
  /\ incl piece s /\ incl rest s.
Proof.
  revert before piece rest last.
  induction s as [|c r IH]; intros before piece rest last; simpl; [discriminate|].
  destruct (Re.after_terminator before && isspace c) eqn:Hm.
  - apply andb_prop in Hm. destruct Hm as [_ Hc].
    destruct (skip_spaces_visible c r) as [E I].
    destruct (Re.skip_spaces c r) as [l' rest']. intros [= <- <- <-].
    simpl in *. rewrite Hc. simpl.
    repeat split; [symmetry; exact E | intros x [] | apply incl_tl, I].
  - destruct (Re.find_separator (Some c) r) as [[[piece' last'] rest']|] eqn:Hf;
      [|discriminate].
    intros [= <- <- <-].
    destruct (IH _ _ _ _ Hf) as [E [I1 I2]].
    repeat split.
    + simpl. rewrite E. destruct (isspace c); reflexivity.
    + intros x [<-|Hx]; [left; reflexivity | right; apply I1, Hx].
    + apply incl_tl, I2.
Qed.

Lemma split_from_visible (fuel : nat) (before : option ascii) (s : str) :
  (length s <= fuel)%nat ->
  visible (concat (Re.split_from fuel before s)) = visible s
  /\ Forall (fun piece => incl piece s) (Re.split_from fuel before s).
Proof.
  revert before s. induction fuel as [|f IH]; intros before s Hlen.
  - destruct s; [|simpl in Hlen; lia]. split; [reflexivity|].
    constructor; [apply incl_refl | constructor].
  - simpl. destruct (Re.find_separator before s) as [[[piece last] rest]|] eqn:Hf.
    + destruct (find_separator_some _ _ _ _ _ Hf) as [_ [_ Hl]].
      destruct (find_separator_visible _ _ _ _ _ Hf) as [E [I1 I2]].
      destruct (IH (Some last) rest) as [E' F]; [lia|].
      split.
      * simpl. rewrite visible_app, E', E. reflexivity.
      * constructor; [exact I1|]. revert F. apply Forall_impl.
        intros p Hp. apply (incl_tran Hp I2).
    + split; [simpl; rewrite app_nil_r; reflexivity|].
      constructor; [apply incl_refl | constructor].
Qed.

Lemma replace2_absent (a b : ascii) (new s : str) :
  ~ In a s -> replace2 a b new s = s.
Proof.
  induction s as [|c t IH]; [reflexivity|].
  intros Hn. destruct t as [|d r]; [reflexivity|].
  rewrite replace2_step.
  destruct (Ascii.eqb_spec c a) as [->|Hca]; [exfalso; apply Hn; left; reflexivity|].
  simpl andb. cbv iota. f_equal. apply IH. intros H. apply Hn. right. exact H.
Qed.

(** X4: In a text without a backslash, splitting into sentences drops whitespace
    only: the sentences, one after the other, hold the characters of the
    text that are not whitespace, in their order. *)
Theorem sentence_split_keeps_visible (text : str) :
  ~ In "\" text ->
  visible (concat (sentence_split text)) = visible text.
Proof.
  intros Hn. unfold sentence_split.
  destruct (split_from_visible (length (strip text)) None (strip text) (le_n _))
    as [E F].
  fold (Re.split_sentences (strip text)) in E, F.
  rewrite <- (strip_visible text), <- E.
  assert (Hpieces : Forall (fun piece => ~ In "\" piece) (Re.split_sentences (strip text))).
  { revert F. apply Forall_impl. intros p Hp Hin. apply Hn.
    destruct (strip_split text) as [pre [post Es]]. rewrite Es.
    apply in_or_app. right. apply in_or_app. left. apply Hp, Hin. }
  clear E F. induction Hpieces as [|p ps Hp _ IH]; [reflexivity|].
  cbn [filter concat]. rewrite visible_app, <- IH.
  destruct (0 <? length (strip p))%nat eqn:Hk.
  - cbn [map concat]. rewrite visible_app. f_equal.
    rewrite (replace2_absent _ _ _ p Hp). apply strip_visible.
  - apply Nat.ltb_ge in Hk.
    assert (Es : strip p = []) by (destruct (strip p); [reflexivity | simpl in Hk; lia]).
    rewrite <- (strip_visible p), Es. reflexivity.
Qed.

Lemma sentence_split_keeps_visible_witness :
  visible (concat (sentence_split with_marker)) = visible with_marker.
Proof.
  apply (sentence_split_keeps_visible with_marker).
  vm_compute. intros H.
  repeat (destruct H as [H|H]; [discriminate H|]). exact H.
Defined.

(** ** The entry point *)

Lemma penalties_range_total (f : Features.t) (sentences : list str) :
  exists raw,
    map fst raw = sentences
    /\ sentence_contributions sentences f = Ok (sort_desc snd raw).
Proof.
  destruct (sentence_contributions_total f sentences) as [raw [_ [Hm [_ Ec]]]].
  exists raw. auto.
Qed.

Section AnalyzeAnswers.

Variable World : Type.
Variable oracle : str -> World -> (string + Q * Q) * World.

Lemma sentence_sentiments_answers (l : list str) (vals : list (Q * Q)) (w w' : World) :
  answers oracle l w = Some (vals, w') ->
  exists ss,
    for_eachM World (sentence_sentiment World oracle) l w = (Ok ss, w')
    /\ map Sentiment.text ss = l
    /\ map sentiment_pair ss = vals.
Proof.
  revert vals w. induction l as [|a l IH]; intros vals w Ha.
  - simpl in Ha. injection Ha as Hv Hw. subst. exists []. auto.
  - cbn [answers] in Ha.
    cbn [for_eachM]. unfold bindM at 1. unfold sentence_sentiment at 1.
    unfold bindM at 1. unfold sentiment.
    destruct (oracle a w) as [[e|ps] w0]; [discriminate|].
    destruct (answers oracle l w0) as [[vs w'']|] eqn:Hr; [|discriminate].
    injection Ha as Hv Hw. subst vals w''.
    destruct (IH _ _ Hr) as [ss [E [Ht Hp]]].
    unfold ret at 1. unfold bindM. rewrite E. unfold ret.
    eexists. split; [reflexivity|]. simpl. rewrite Ht, Hp.
    unfold sentiment_pair. simpl. destruct ps. auto.
Qed.

Lemma compute_features_answers (text : str) (vals : list (Q * Q)) (w w' : World) :
  answers oracle (text :: sentence_split text) w = Some (vals, w') ->
  exists f ss,
    compute_features oracle text w
    = (Ok (f, sentence_split text, tokenize_words text, ss), w')
    /\ features_of text f
    /\ map Sentiment.text ss = sentence_split text
    /\ (Features.sentiment_polarity f, Features.sentiment_subjectivity f)
       :: map sentiment_pair ss = vals.
Proof.
  intros Ha. unfold compute_features.
  destruct (avg_sentence_length_nonneg (sentence_split text)) as [asl [E1 _]].
  destruct (avg_word_length_nonneg (tokenize_words text)) as [awl [E2 _]].
  destruct (type_token_ratio_range (tokenize_words text)) as [ttr [E3 _]].
  destruct (lexical_sophistication_range (tokenize_words text)) as [ls [E4 _]].
  destruct (coherence_score_range (sentence_split text)) as [coh [E5 _]].
  destruct (reasoning_proxy_range (sentence_split text) (tokenize_words text))
    as [rp [E6 _]].
  rewrite E1, E2, E3, E4, E5, E6.
  unfold bindM at 1 2 3 4 5 6. unfold lift. unfold bindM at 1. unfold sentiment.
  cbn [answers] in Ha.
  destruct (oracle text w) as [[e|ps] w0]; [discriminate|].
  destruct (answers oracle (sentence_split text) w0) as [[vs w'']|] eqn:Hr;
    [|discriminate].
  injection Ha as Hv Hw. subst vals w''.
  destruct (sentence_sentiments_answers _ _ _ _ Hr) as [ss [E [Ht Hp]]].
  unfold bindM. rewrite E. unfold ret.
  eexists. eexists. split; [reflexivity|].
  split; [unfold features_of; cbn; rewrite E1, E2, E3, E4, E5, E6; auto 12|].
  split; [exact Ht|].
  cbn [Features.sentiment_polarity Features.sentiment_subjectivity].
  rewrite Hp. destruct ps. reflexivity.
Qed.

Lemma analyze_after_features (text : str) (w w' : World) (f : Features.t)
    (ss : list Sentiment.t) :
  (20 <= len (strip text))%Z ->
  compute_features oracle text w
  = (Ok (f, sentence_split text, tokenize_words text, ss), w') ->
  features_of text f ->
  exists resp,
    analyze oracle text w = (Ok resp, w')
    /\ Response.diagnostics resp = f
    /\ Response.sentiment_analysis resp = ss.
Proof.
  intros Hlen Hc Hf. unfold analyze.
  apply Z.ltb_ge in Hlen. rewrite Hlen. unfold bindM. rewrite Hc.
  pose proof (features_of_range text f Hf) as R.
  destruct (score_paper_range f) as [sc [Esc _]]; try tauto.
  destruct (sentence_contributions_total f (sentence_split text)) as [raw [_ [_ [_ Ec]]]].
  unfold lift, ret. rewrite Esc, Ec.
  eexists. split; [reflexivity|]. split; reflexivity.
Qed.

End AnalyzeAnswers.

(** X17: When the text has at least 20 characters once stripped and the oracle
    answers on the text and then on every sentence, [analyze] returns a
    response; the oracle has been called once on the text and once per
    sentence, in document order, and its answers are in the response
    unchanged: the first in the diagnostics, the others in
    [sentiment_analysis], one entry per sentence in document order. *)
Theorem analyze_returns_oracle_answers (World : Type)
    (oracle : str -> World -> (string + Q * Q) * World)
    (text : str) (vals : list (Q * Q)) (w w' : World) :
  (20 <= len (strip text))%Z ->
  answers oracle (text :: sentence_split text) w = Some (vals, w') ->
  exists resp,
    analyze oracle text w = (Ok resp, w')
    /\ map Sentiment.text (Response.sentiment_analysis resp) = sentence_split text
    /\ (Features.sentiment_polarity (Response.diagnostics resp),
        Features.sentiment_subjectivity (Response.diagnostics resp))
       :: map sentiment_pair (Response.sentiment_analysis resp) = vals.
Proof.
  intros Hlen Ha.
  destruct (compute_features_answers World oracle text vals w w' Ha)
    as [f [ss [Hc [Hf [Ht Hv]]]]].
  destruct (analyze_after_features World oracle text w w' f ss Hlen Hc Hf)
    as [resp [E [Ed Es]]].
  exists resp. rewrite Ed, Es. auto.
Qed.

Lemma analyze_returns_oracle_answers_witness :
  exists resp,
    analyze flaky_oracle with_marker 2%nat = (Ok resp, 5%nat)
    /\ map Sentiment.text (Response.sentiment_analysis resp) = sentence_split with_marker
    /\ (Features.sentiment_polarity (Response.diagnostics resp),
        Features.sentiment_subjectivity (Response.diagnostics resp))
       :: map sentiment_pair (Response.sentiment_analysis resp)
       = [(0, 0); (0, 0); (0, 0)].
Proof.
  apply (analyze_returns_oracle_answers nat flaky_oracle with_marker
           [(0, 0); (0, 0); (0, 0)] 2%nat 5%nat).
  - vm_compute. discriminate.
  - vm_compute. reflexivity.
Defined.

Lemma analyze_long_text (World : Type)
    (oracle : str -> World -> (string + Q * Q) * World) (text : str) (w : World) :
  (len (strip text) <? 20)%Z = false ->
  match analyze oracle text w with
  | (Ok _, _) => True
  | (Raise e, _) => exists what, e = OracleRaised what
  end.
Proof.
  intros Hlen.
  pose proof (compute_features_cases World oracle text w) as Hc.
  destruct (compute_features oracle text w) as [[[[[f sents] words] ss]|e] w1] eqn:E.
  - destruct Hc as [Hf [Hs [Hw _]]]. subst sents words.
    apply Z.ltb_ge in Hlen.
    destruct (analyze_after_features World oracle text w w1 f ss Hlen E Hf)
      as [resp [Er _]].
    rewrite Er. exact I.
  - unfold analyze. rewrite Hlen. unfold bindM. rewrite E. exact Hc.
Qed.

(** X18: [analyze] raises the HTTP 400 refusal exactly for a text shorter than 20
    characters once stripped, and then without calling the oracle; a longer
    text fails only with an exception of the oracle. *)
Theorem analyze_refuses_short_text (World : Type)
    (oracle : str -> World -> (string + Q * Q) * World) (text : str) (w : World) :
  if (len (strip text) <? 20)%Z
  then analyze oracle text w = (Raise too_short, w)
  else match analyze oracle text w with
       | (Ok _, _) => True
       | (Raise e, _) => exists what, e = OracleRaised what
       end.
Proof.
  destruct (len (strip text) <? 20)%Z eqn:Hlen.
  - unfold analyze. rewrite Hlen. reflexivity.
  - apply analyze_long_text, Hlen.
Qed.

(** X19: The test of the two front ends is the one of the backend: a text a front
    end posts is never refused as too short, and a text a front end holds
    back would have been. *)
Theorem client_sends_what_backend_accepts (World : Type)
    (oracle : str -> World -> (string + Q * Q) * World) (text : str) (w : World) :
  if client_sends text
  then fst (analyze oracle text w) <> Raise too_short
  else analyze oracle text w = (Raise too_short, w).
Proof.
  assert (E : client_sends text = negb (len (strip text) <? 20)%Z).
  { unfold client_sends. destruct text; reflexivity. }
  rewrite E. destruct (len (strip text) <? 20)%Z eqn:Hlen; simpl.
  - unfold analyze. rewrite Hlen. reflexivity.
  - pose proof (analyze_long_text World oracle text w Hlen) as H.
    destruct (analyze oracle text w) as [[resp|e] w1]; simpl; [discriminate|].
    destruct H as [what ->]. discriminate.
Qed.

(** X20: Every response counts at least one sentence and flags at least one and at
    most five. *)
Theorem response_flags_a_sentence (World : Type)
    (oracle : str -> World -> (string + Q * Q) * World) (text : str) (w : World) :
  match analyze oracle text w with
  | (Ok resp, _) =>
      (1 <= Features.sentence_count (Response.diagnostics resp))%Z
      /\ (1 <= length (Response.top_flagged_sentences resp) <= 5)%nat
  | (Raise _, _) => True
  end.
Proof.
  pose proof (analyze_cases World oracle text w) as H.
  destruct (analyze oracle text w) as [[resp|e] w']; [|exact I].
  destruct H as [Hf [Hlen [sc [contribs [_ [Ec [_ [_ [_ [_ [Et _]]]]]]]]]]].
  assert (Hne : sentence_split text <> []).
  { intros E. apply sentence_split_nil_blank in E. rewrite E in Hlen.
    unfold len in Hlen. simpl in Hlen. lia. }
  destruct Hf as (_ & Hsc & _).
  destruct (penalties_range_total (Response.diagnostics resp) (sentence_split text))
    as [raw [Hm Ec']].
  rewrite Ec in Ec'. apply Ok_inj in Ec'.
  assert (Hl : length contribs = length (sentence_split text)).
  { rewrite Ec', <- (Permutation_length (sort_desc_perm snd raw)), <- Hm.
    symmetry. apply length_map. }
  assert (Hpos : (1 <= length (sentence_split text))%nat)
    by (destruct (sentence_split text); [contradiction | simpl; lia]).
  split.
  - rewrite Hsc. unfold len. lia.
  - rewrite Et, length_map, length_firstn, Hl. lia.
Qed.

(** X21: With at most five sentences, every sentence of the text is among the
    flagged ones: [top_flagged_sentences] is a permutation of the sentences. *)
Theorem few_sentences_all_flagged (World : Type)
    (oracle : str -> World -> (string + Q * Q) * World) (text : str) (w : World) :
  (length (sentence_split text) <= 5)%nat ->
  match analyze oracle text w with
  | (Ok resp, _) =>
      Permutation (sentence_split text) (Response.top_flagged_sentences resp)
  | (Raise _, _) => True
  end.
Proof.
  intros Hlen.
  pose proof (analyze_cases World oracle text w) as H.
  destruct (analyze oracle text w) as [[resp|e] w']; [|exact I].
  destruct H as [_ [_ [sc [contribs [_ [Ec [_ [_ [_ [_ [Et _]]]]]]]]]]].
  destruct (penalties_range_total (Response.diagnostics resp) (sentence_split text))
    as [raw [Hm Ec']].
  rewrite Ec in Ec'. apply Ok_inj in Ec'. subst contribs.
  rewrite Et, firstn_all2.
  - rewrite <- Hm at 1. apply Permutation_map, sort_desc_perm.
  - rewrite <- (Permutation_length (sort_desc_perm snd raw)).
    rewrite <- Hm, length_map in Hlen. exact Hlen.
Qed.

Lemma few_sentences_all_flagged_witness :
  match analyze steady_oracle with_marker tt with
  | (Ok resp, _) =>
      Permutation (sentence_split with_marker) (Response.top_flagged_sentences resp)
  | (Raise _, _) => True
  end.
Proof.
  apply (few_sentences_all_flagged unit steady_oracle with_marker tt).
  vm_compute. lia.
Defined.

(** ** The ranking in the response *)

Section OracleSilence.

Variable World : Type.
Variable oracle : str -> World -> (string + Q * Q) * World.

Lemma sentence_sentiments_none (l : list str) (w : World) :
  answers oracle l w = None ->
  exists what w',
    for_eachM World (sentence_sentiment World oracle) l w
    = (Raise (OracleRaised what), w').
Proof.
  revert w. induction l as [|a l IH]; intros w Ha; [discriminate|].
  cbn [answers] in Ha.
  cbn [for_eachM]. unfold bindM at 1. unfold sentence_sentiment at 1.
  unfold bindM at 1. unfold sentiment.
  destruct (oracle a w) as [[e|ps] w0]; [eauto|].
  destruct (answers oracle l w0) as [[vs w'']|] eqn:Hr; [discriminate|].
  destruct (IH _ Hr) as [what [w' E]].
  unfold ret at 1. unfold bindM. rewrite E. eauto.
Qed.

Lemma compute_features_none (text : str) (w : World) :
  answers oracle (text :: sentence_split text) w = None ->
  exists what w',
    compute_features oracle text w = (Raise (OracleRaised what), w').
Proof.
  intros Ha. unfold compute_features.
  destruct (avg_sentence_length_nonneg (sentence_split text)) as [asl [E1 _]].
  destruct (avg_word_length_nonneg (tokenize_words text)) as [awl [E2 _]].
  destruct (type_token_ratio_range (tokenize_words text)) as [ttr [E3 _]].
  destruct (lexical_sophistication_range (tokenize_words text)) as [ls [E4 _]].
  destruct (coherence_score_range (sentence_split text)) as [coh [E5 _]].
  destruct (reasoning_proxy_range (sentence_split text) (tokenize_words text))
    as [rp [E6 _]].
  rewrite E1, E2, E3, E4, E5, E6.
  unfold bindM at 1 2 3 4 5 6. unfold lift. unfold bindM at 1. unfold sentiment.
  cbn [answers] in Ha.
  destruct (oracle text w) as [[e|ps] w0]; [eauto|].
  destruct (answers oracle (sentence_split text) w0) as [[vs w'']|] eqn:Hr;
    [discriminate|].
  destruct (sentence_sentiments_none _ _ Hr) as [what [w' E]].
  unfold bindM. rewrite E. eauto.
Qed.

Lemma analyze_none (text : str) (w : World) :
  (len (strip text) <? 20)%Z = false ->
  answers oracle (text :: sentence_split text) w = None ->
  exists what w', analyze oracle text w = (Raise (OracleRaised what), w').
Proof.
  intros Hlen Ha. destruct (compute_features_none text w Ha) as [what [w' E]].
  exists what, w'. unfold analyze. rewrite Hlen. unfold bindM. rewrite E.
  reflexivity.
Qed.

End OracleSilence.

(** C6: for every sentence sequence and feature vector,
    [sentence_contributions] returns the (sentence, penalty) pairs of the
    sentences, sorted by penalty in descending order, pairs of equal penalty
    staying in document order.  And [analyze], on a text of at least 20
    characters once stripped on which the oracle answers (on the text and
    on every sentence), returns a response whose [top_flagged_sentences]
    are exactly the first min(5, number of sentences) sentences of that
    ranking; it raises only on a shorter text (the refusal) or when the
    oracle raises. *)
Theorem ranking_sorted_and_truncated (sentences : list str) (f : Features.t)
    (World : Type) (oracle : str -> World -> (string + Q * Q) * World)
    (text : str) (w : World) :
  (exists raw contribs,
      for_each (contribution f) sentences = Ok raw
      /\ map fst raw = sentences
      /\ sentence_contributions sentences f = Ok contribs
      /\ Permutation raw contribs
      /\ StronglySorted (descending snd) contribs
      /\ forall p : Q, filter (same_key snd p) contribs = filter (same_key snd p) raw)
  /\ (if (len (strip text) <? 20)%Z
      then analyze oracle text w = (Raise too_short, w)
      else match answers oracle (text :: sentence_split text) w with
           | Some (_, w') =>
               exists resp contribs,
                 analyze oracle text w = (Ok resp, w')
                 /\ sentence_contributions (sentence_split text)
                      (Response.diagnostics resp) = Ok contribs
                 /\ Response.top_flagged_sentences resp
                    = firstn (Nat.min 5 (length (sentence_split text)))
                             (map fst contribs)
                 /\ length (Response.top_flagged_sentences resp)
                    = Nat.min 5 (length (sentence_split text))
           | None =>
               exists what w',
                 analyze oracle text w = (Raise (OracleRaised what), w')
           end).
Proof.
  split.
  - destruct (sentence_contributions_total f sentences) as [raw [E [Hm [_ Ec]]]].
    exists raw, (sort_desc snd raw).
    repeat split; try assumption.
    + apply sort_desc_perm.
    + apply sort_desc_sorted.
    + intros p. apply sort_desc_stable.
  - destruct (len (strip text) <? 20)%Z eqn:Hlen.
    { unfold analyze. rewrite Hlen. reflexivity. }
    destruct (answers oracle (text :: sentence_split text) w) as [[vals w']|] eqn:Ha;
      [|apply analyze_none; assumption].
    destruct (compute_features_answers World oracle text vals w w' Ha)
      as [f0 [ss [Hc [Hf _]]]].
    pose proof Hlen as Hge. apply Z.ltb_ge in Hge.
    destruct (analyze_after_features World oracle text w w' f0 ss Hge Hc Hf)
      as [resp [Er _]].
    pose proof (analyze_cases World oracle text w) as H. rewrite Er in H.
    destruct H as [_ [_ [sc [contribs [_ [Ec [_ [_ [_ [_ [Et _]]]]]]]]]]].
    exists resp, contribs. split; [exact Er|]. split; [exact Ec|].
    destruct (sentence_contributions_total (Response.diagnostics resp)
                (sentence_split text)) as [raw [_ [Hm [_ Ec']]]].
    rewrite Ec in Ec'. apply Ok_inj in Ec'.
    assert (Hl : length contribs = length (sentence_split text)).
    { rewrite Ec', <- (Permutation_length (sort_desc_perm snd raw)), <- Hm.
      symmetry. apply length_map. }
    rewrite Et, <- firstn_map. split.
    + rewrite <- Hl, <- (length_map fst contribs). symmetry. apply firstn_min.
    + rewrite length_firstn, length_map, Hl. reflexivity.
Qed.

(** The ranking of a response on a sample text: the oracle answers, the text
    is long enough, and both sentences are flagged in ranking order. *)
Example ranking_sample :
  (len (strip with_marker) <? 20)%Z = false
  /\ answers steady_oracle (with_marker :: sentence_split with_marker) tt
     = Some ([(0, 0); (0, 0); (0, 0)], tt)
  /\ exists resp,
      analyze steady_oracle with_marker tt = (Ok resp, tt)
      /\ Response.top_flagged_sentences resp
         = [lit "The result failed."; lit "Therefore the hypothesis is rejected."].
Proof.
  split; [reflexivity|]. split; [reflexivity|].
  eexists. split; vm_compute; reflexivity.
Qed.
